(** * Table-of-contents editor: the tree mutation functions of [src/App.tsx]

    A shallow embedding of [addNode], [updateNodeTitle], [deleteNode] and
    [handleMoveNode] (with its local helpers [findNode], [getDescendantIds],
    [remove] and [insert]), and of the [handleDrop] and [handleAddChild]
    callers, followed by the properties of the specification that concern
    them. *)

From Stdlib Require Import String Bool Arith Lia List Permutation.
Import ListNotations.
Open Scope string_scope.
Open Scope list_scope.

(** ** Data model *)

(** [TocNode] of [./types]: [{ id: string; title: string; children: TocNode[] }]. *)
#[warnings="-register-all"]
Inductive TocNode : Type :=
  mkTocNode (node_id : string) (node_title : string) (node_children : list TocNode).

Definition id (node : TocNode) : string :=
  match node with mkTocNode i _ _ => i end.

Definition title (node : TocNode) : string :=
  match node with mkTocNode _ t _ => t end.

Definition children (node : TocNode) : list TocNode :=
  match node with mkTocNode _ _ cs => cs end.

(** The drop position, ['top' | 'bottom']. *)
Inductive Position : Type := top | bottom.

(** ** Array helpers

    Loops of the source that carry a result or a variable of the enclosing
    scope from one element to the next. *)
Section ArrayLoops.
Context {A B S : Type}.

(** [for (const x of xs) { const r = f(x); if (r) return r; } return null;] *)
Variable f : A -> option B.

Fixpoint first_some (xs : list A) : option B :=
  match xs with
  | [] => None
  | x :: rest =>
      match f x with
      | Some r => Some r
      | None => first_some rest
      end
  end.

(** [xs.filter(x => ...)] whose callback also assigns a captured variable
    (the state [S]) and may replace the fields of the element it keeps:
    the callback returns the kept element, or [None] to drop it. *)
Variable g : A -> S -> option A * S.

Fixpoint filter_with (xs : list A) (s : S) : list A * S :=
  match xs with
  | [] => ([], s)
  | x :: rest =>
      let (kept, s1) := g x s in
      let (rest', s2) := filter_with rest s1 in
      (match kept with Some x' => x' :: rest' | None => rest' end, s2)
  end.
End ArrayLoops.

(** ** addNode (lines 50-68) *)

(** The callback of [nodes.map] in [addNode], for a non-null [parentId]. *)
Fixpoint addNode_in (parentId : string) (newNode : TocNode) (node : TocNode)
  : TocNode :=
  match node with
  | mkTocNode i t cs =>
      if i =? parentId then mkTocNode i t (cs ++ [newNode])
      else if (0 <? length cs)%nat
           then mkTocNode i t (map (addNode_in parentId newNode) cs)
           else node
  end.

Definition addNode (nodes : list TocNode) (parentId : option string)
  (newNode : TocNode) : list TocNode :=
  match parentId with
  | None => nodes ++ [newNode]
  | Some p => map (addNode_in p newNode) nodes
  end.

(** [handleAddChild] (lines 70-80): the new node's id is the clock reading
    [new Date().getTime().toString()], here the argument [stamp]. *)
Definition handleAddChild (nodes : list TocNode) (parentId : option string)
  (stamp : string) : list TocNode :=
  addNode nodes parentId (mkTocNode stamp "New Section" []).

(** ** updateNodeTitle (lines 82-96) *)

Fixpoint updateNodeTitle_in (nodeId newTitle : string) (node : TocNode)
  : TocNode :=
  match node with
  | mkTocNode i t cs =>
      if i =? nodeId then mkTocNode i newTitle cs
      else if (0 <? length cs)%nat
           then mkTocNode i t (map (updateNodeTitle_in nodeId newTitle) cs)
           else node
  end.

Definition updateNodeTitle (nodes : list TocNode) (nodeId newTitle : string)
  : list TocNode :=
  map (updateNodeTitle_in nodeId newTitle) nodes.

(** ** deleteNode (lines 102-109)

    [nodes.filter(node => node.id !== nodeId).map(node => ({...node,
    children: deleteNode(node.children, nodeId)}))].  The recursion goes
    through the children of the nodes that the filter keeps; the equation
    [deleteNode_eq] below restates the definition in the source's form. *)
Fixpoint deleteNode_in (nodeId : string) (node : TocNode) : list TocNode :=
  match node with
  | mkTocNode i t cs =>
      if negb (i =? nodeId)
      then [mkTocNode i t (flat_map (deleteNode_in nodeId) cs)]
      else []
  end.

Definition deleteNode (nodes : list TocNode) (nodeId : string) : list TocNode :=
  flat_map (deleteNode_in nodeId) nodes.

(** ** handleMoveNode (lines 115-176) *)

(** [findNode] (lines 118-125), the loop body for one node. *)
Fixpoint findNode_in (i : string) (node : TocNode) : option TocNode :=
  match node with
  | mkTocNode nid _ cs =>
      if nid =? i then Some node else first_some (findNode_in i) cs
  end.

Definition findNode (searchNodes : list TocNode) (i : string) : option TocNode :=
  first_some (findNode_in i) searchNodes.

(** [getDescendantIds] (lines 127-134). *)
Fixpoint getDescendantIds (node : TocNode) : list string :=
  match node with
  | mkTocNode _ _ cs =>
      flat_map (fun child => id child :: getDescendantIds child) cs
  end.

(** [descendantIds.includes(targetId)]. *)
Definition includes (ids : list string) (x : string) : bool :=
  existsb (fun y => y =? x) ids.

(** [remove] (lines 145-156).  The filter callback assigns the captured
    variable [draggedNode] at every match and overwrites the [children] of
    every item it keeps ([item.children] is an array, hence truthy);
    [draggedNode] is threaded through as state, so the last match wins. *)
Fixpoint remove_in (i : string) (item : TocNode) (draggedNode : option TocNode)
  : option TocNode * option TocNode :=
  match item with
  | mkTocNode iid t cs =>
      if iid =? i then (None, Some item)
      else
        let (cs', draggedNode') := filter_with (remove_in i) cs draggedNode in
        (Some (mkTocNode iid t cs'), draggedNode')
  end.

Definition remove (items : list TocNode) (i : string)
  (draggedNode : option TocNode) : list TocNode * option TocNode :=
  filter_with (remove_in i) items draggedNode.

(** [insert] (lines 158-168).  [item.children] is an array, hence truthy, for
    every [TocNode]; the final [return [item]] is not reachable. *)
Fixpoint insert_in (tId : string) (nodeToInsert : TocNode) (pos : Position)
  (item : TocNode) : list TocNode :=
  match item with
  | mkTocNode i t cs =>
      if i =? tId
      then match pos with
           | top => [nodeToInsert; item]
           | bottom => [item; nodeToInsert]
           end
      else [mkTocNode i t (flat_map (insert_in tId nodeToInsert pos) cs)]
  end.

Definition insert (items : list TocNode) (tId : string) (nodeToInsert : TocNode)
  (pos : Position) : list TocNode :=
  flat_map (insert_in tId nodeToInsert pos) items.

(** The three ways [handleMoveNode] ends. *)
Inductive MoveResult : Type :=
| ConsoleError (message : string)      (* lines 140-141: logged, early return *)
| NoDraggedNode                        (* line 172: [draggedNode] is null *)
| SetNodes (newTree : list TocNode).   (* line 174 *)

(** [JSON.parse(JSON.stringify(nodes))]: a deep copy, equal as a value; the
    in-place assignments of [remove] act on the copy only. *)
Definition deepCopy (nodes : list TocNode) : list TocNode := nodes.

Definition descendantGuard (nodes : list TocNode) (draggedId targetId : string)
  : bool :=
  match findNode nodes draggedId with
  | Some foundDraggedNode => includes (getDescendantIds foundDraggedNode) targetId
  | None => false
  end.

Definition handleMoveNode (nodes : list TocNode) (draggedId targetId : string)
  (position : Position) : MoveResult :=
  if descendantGuard nodes draggedId targetId
  then ConsoleError "Cannot move a node into one of its own descendants."
  else
    let (treeWithoutDragged, draggedNode) :=
      remove (deepCopy nodes) draggedId None in
    match draggedNode with
    | Some dragged => SetNodes (insert treeWithoutDragged targetId dragged position)
    | None => NoDraggedNode
    end.

(** The [nodes] state after the handler returns: replaced by [setNodes], or
    left as it was. *)
Definition nodesAfter (nodes : list TocNode) (r : MoveResult) : list TocNode :=
  match r with
  | SetNodes newTree => newTree
  | ConsoleError _ | NoDraggedNode => nodes
  end.

(** [handleDrop] of the [TreeNode] component: [draggedId] is what the drag
    carried (the empty string is falsy), [node] the node dropped on, and
    [dropPosition] the component's state ([null] when no drag is over it). *)
Definition handleDrop (nodes : list TocNode) (draggedId : string)
  (node : TocNode) (dropPosition : option Position) : list TocNode :=
  match dropPosition with
  | Some pos =>
      if negb (draggedId =? EmptyString) && negb (draggedId =? id node)
      then nodesAfter nodes (handleMoveNode nodes draggedId (id node) pos)
      else nodes
  | None => nodes
  end.

(** ** Examples *)

Definition chapter1 : TocNode :=
  mkTocNode "1" "Chapter 1: The Beginning"
    [ mkTocNode "1-1" "The first step" [];
      mkTocNode "1-2" "A fork in the road"
        [ mkTocNode "1-2-1" "The left path" [];
          mkTocNode "1-2-2" "The right path" [] ] ].

Definition initialData : list TocNode :=
  [ chapter1;
    mkTocNode "2" "Chapter 2: The Middle" [];
    mkTocNode "3" "Chapter 3: The End" [] ].

(** The scenario forest of the specification. *)
Definition scenario : list TocNode :=
  [ mkTocNode "1" "A" [ mkTocNode "1-1" "B" [] ] ].

(** A forest outside Invariant 1: two nodes bear the id ["a"]. *)
Definition twins : list TocNode :=
  [ mkTocNode "a" "first" [];
    mkTocNode "a" "second" [ mkTocNode "b" "B" [] ] ].

(** ** Vocabulary of the specification *)

(** A node and all the nodes below it, in document order. *)
Fixpoint nodesOf (node : TocNode) : list TocNode :=
  match node with
  | mkTocNode _ _ cs => node :: flat_map nodesOf cs
  end.

(** Every node of a forest, and every id. *)
Definition allNodes (forest : list TocNode) : list TocNode :=
  flat_map nodesOf forest.

Definition allIds (forest : list TocNode) : list string :=
  map id (allNodes forest).

(** [X] is a node of the forest; the id [i] occurs in the forest. *)
Definition present (X : TocNode) (forest : list TocNode) : Prop :=
  In X (allNodes forest).

Definition occurs (i : string) (forest : list TocNode) : Prop :=
  In i (allIds forest).

(** Invariant 1: every id appears at most once in the forest. *)
Definition uniqueIds (forest : list TocNode) : Prop :=
  NoDup (allIds forest).

(** Invariant 2, on identifiers: no node's id is among the ids reachable from
    it through [children]. *)
Definition acyclic (forest : list TocNode) : Prop :=
  forall X, present X forest -> ~ In (id X) (getDescendantIds X).

(** One local edit of a forest: in exactly one sequence (the root sequence
    or the [children] of some node), one element [x] is replaced by the
    elements [xs], where [edit x xs]; every other sequence, every other
    element and the order of all of them stay as they are. *)
Inductive editedAt (edit : TocNode -> list TocNode -> Prop)
  : list TocNode -> list TocNode -> Prop :=
| edit_here : forall before x xs after,
    edit x xs ->
    editedAt edit (before ++ x :: after) (before ++ xs ++ after)
| edit_below : forall before i t cs cs' after,
    editedAt edit cs cs' ->
    editedAt edit (before ++ mkTocNode i t cs :: after)
                  (before ++ mkTocNode i t cs' :: after).

(** The local edits of the four operations. *)
Definition dropsNode (X : TocNode) : TocNode -> list TocNode -> Prop :=
  fun x xs => x = X /\ xs = [].

Definition retitles (X : TocNode) (newTitle : string)
  : TocNode -> list TocNode -> Prop :=
  fun x xs => x = X /\ xs = [mkTocNode (id X) newTitle (children X)].

Definition appendsChild (parentId : string) (newNode : TocNode)
  : TocNode -> list TocNode -> Prop :=
  fun x xs =>
    id x = parentId /\
    xs = [mkTocNode (id x) (title x) (children x ++ [newNode])].

Definition splicesAt (targetId : string) (D : TocNode) (pos : Position)
  : TocNode -> list TocNode -> Prop :=
  fun x xs =>
    id x = targetId /\
    xs = match pos with top => [D; x] | bottom => [x; D] end.

(** Sequences of operations, as the presentation layer issues them. *)
Inductive Op : Type :=
| Add (parentId : option string) (newNode : TocNode)
| Rename (nodeId newTitle : string)
| Delete (nodeId : string)
| Move (draggedId targetId : string) (position : Position).

Definition applyOp (forest : list TocNode) (op : Op) : list TocNode :=
  match op with
  | Add parentId newNode => addNode forest parentId newNode
  | Rename nodeId newTitle => updateNodeTitle forest nodeId newTitle
  | Delete nodeId => deleteNode forest nodeId
  | Move draggedId targetId position =>
      nodesAfter forest (handleMoveNode forest draggedId targetId position)
  end.

Definition applyOps (forest : list TocNode) (ops : list Op) : list TocNode :=
  fold_left applyOp ops forest.

(** An [Add] is fresh when the new node's own ids are pairwise distinct and
    none of them occurs in the forest it is added to; a sequence is fresh
    when each of its [Add]s is, at the time it is applied. *)
Definition freshNode (forest : list TocNode) (newNode : TocNode) : Prop :=
  uniqueIds [newNode] /\ forall i, occurs i [newNode] -> ~ occurs i forest.

Fixpoint freshOps (forest : list TocNode) (ops : list Op) : Prop :=
  match ops with
  | [] => True
  | op :: rest =>
      match op with
      | Add _ newNode => freshNode forest newNode
      | _ => True
      end /\ freshOps (applyOp forest op) rest
  end.

(** How many nodes of the forest bear the id [x]. *)
Definition countId (x : string) (forest : list TocNode) : nat :=
  count_occ string_dec (allIds forest) x.

(** A sample session on the scenario forest. *)
Definition sampleOps : list Op :=
  [ Add (Some "1") (mkTocNode "7" "New Section" []);
    Move "1-1" "1" top;
    Rename "7" "Seven";
    Move "1" "7" bottom;
    Delete "1-1";
    Add None (mkTocNode "8" "New Section" []) ].

(** ** The handlers around the tree functions *)

(** [expandedNodes] is a [Set<string>]: the ids in insertion order, each
    once.  [has], [add] and [delete] of the set: *)
Definition setHas (s : list string) (x : string) : bool :=
  existsb (fun y => y =? x) s.

Definition setAdd (s : list string) (x : string) : list string :=
  if setHas s x then s else s ++ [x].

Definition setDelete (s : list string) (x : string) : list string :=
  filter (fun y => negb (y =? x)) s.

(** [handleToggleExpand] (lines 38-48), on a copy of the previous set. *)
Definition handleToggleExpand (prev : list string) (nodeId : string)
  : list string :=
  if setHas prev nodeId then setDelete prev nodeId else setAdd prev nodeId.

(** The second state update of [handleAddChild] (lines 77-79): a truthy
    [parentId], neither null nor the empty string, is added to the
    expanded set. *)
Definition handleAddChild_expanded (expandedNodes : list string)
  (parentId : option string) : list string :=
  match parentId with
  | Some p =>
      if negb (p =? EmptyString) then setAdd expandedNodes p else expandedNodes
  | None => expandedNodes
  end.

(** [handleUpdateTitle] (lines 98-100) and [handleDeleteNode] (lines 111-113)
    apply the tree function to the current state. *)
Definition handleUpdateTitle (nodes : list TocNode) (nodeId newTitle : string)
  : list TocNode :=
  updateNodeTitle nodes nodeId newTitle.

Definition handleDeleteNode (nodes : list TocNode) (nodeId : string)
  : list TocNode :=
  deleteNode nodes nodeId.

(** [handleSave] of the [TreeNode] component: [text] is the component's
    [title] state and [trim] stands for [String.prototype.trim].  The result
    is the forest and the [title] state afterwards; [isEditing] becomes
    false on both paths. *)
Definition handleSave (trim : string -> string) (nodes : list TocNode)
  (node : TocNode) (text : string) : list TocNode * string :=
  if negb (trim text =? EmptyString)
  then (handleUpdateTitle nodes (id node) (trim text), text)
  else (nodes, title node).

(** What the [TreeNode] components put on the screen: one row per rendered
    node, with its [level], a node's children being rendered when it has
    some and its id is in [expandedNodes]. *)
Fixpoint renderNode (expandedNodes : list string) (level : nat) (node : TocNode)
  : list (nat * TocNode) :=
  match node with
  | mkTocNode i _ cs =>
      (level, node)
      :: (if (0 <? length cs)%nat && setHas expandedNodes i
          then flat_map (renderNode expandedNodes (S level)) cs
          else [])
  end.

Definition renderApp (expandedNodes : list string) (nodes : list TocNode)
  : list (nat * TocNode) :=
  flat_map (renderNode expandedNodes 0) nodes.

(** What the user can do to the forest. *)
Inductive Event : Type :=
| ClickAdd (parentId : option string) (stamp : string)
| SaveTitle (node : TocNode) (text : string)
| ClickDelete (nodeId : string)
| DropOn (draggedId : string) (node : TocNode) (dropPosition : option Position).

Definition handleEvent (trim : string -> string) (nodes : list TocNode)
  (e : Event) : list TocNode :=
  match e with
  | ClickAdd parentId stamp => handleAddChild nodes parentId stamp
  | SaveTitle node text => fst (handleSave trim nodes node text)
  | ClickDelete nodeId => handleDeleteNode nodes nodeId
  | DropOn draggedId node dropPosition =>
      handleDrop nodes draggedId node dropPosition
  end.

Definition handleEvents (trim : string -> string) (nodes : list TocNode)
  (es : list Event) : list TocNode :=
  fold_left (handleEvent trim) es nodes.

(** The id and title of every node, in document order. *)
Definition label (node : TocNode) : string * string := (id node, title node).

Definition allLabels (forest : list TocNode) : list (string * string) :=
  map label (allNodes forest).

(** Every node of the forest has a non-empty title. *)
Definition titlesNonEmpty (forest : list TocNode) : Prop :=
  forall i t, In (i, t) (allLabels forest) -> t <> EmptyString.

(** The initial [expandedNodes] of [App]. *)
Definition initialExpanded : list string := ["1"; "1-2"].

(** Every add click of the sequence comes with a clock reading that is
    the id of no node of the forest at that time. *)
Fixpoint freshStamps (trim : string -> string) (forest : list TocNode)
  (events : list Event) : Prop :=
  match events with
  | [] => True
  | e :: rest =>
      match e with
      | ClickAdd _ stamp => ~ occurs stamp forest
      | _ => True
      end /\ freshStamps trim (handleEvent trim forest e) rest
  end.

(** * Proofs *)

(** ** Induction on forests *)

Section ForestInduction.
Variable P : list TocNode -> Prop.
Hypothesis Hnil : P [].
Hypothesis Hcons :
  forall i t cs rest, P cs -> P rest -> P (mkTocNode i t cs :: rest).

Lemma children_forest_ind : forall node, P (children node).
Proof.
  fix IH 1. intros [i t cs]. simpl.
  induction cs as [|x rest IHrest]; [exact Hnil|].
  specialize (IH x). destruct x as [i' t' cs']. simpl in IH.
  apply Hcons; assumption.
Qed.

Lemma forest_ind : forall forest, P forest.
Proof. intros forest. exact (children_forest_ind (mkTocNode EmptyString EmptyString forest)). Qed.
End ForestInduction.

(** ** Unfolding equations, one per function, on a forest [node :: rest] *)

Ltac eqb_cases a b :=
  destruct (String.eqb_spec a b); cbv iota.

Lemma allNodes_cons i t cs rest :
  allNodes (mkTocNode i t cs :: rest)
  = mkTocNode i t cs :: allNodes cs ++ allNodes rest.
Proof. reflexivity. Qed.

Lemma allNodes_app l1 l2 : allNodes (l1 ++ l2) = allNodes l1 ++ allNodes l2.
Proof. apply flat_map_app. Qed.

Lemma allIds_cons i t cs rest :
  allIds (mkTocNode i t cs :: rest) = i :: allIds cs ++ allIds rest.
Proof. unfold allIds. rewrite allNodes_cons. simpl. now rewrite map_app. Qed.

Lemma allIds_app l1 l2 : allIds (l1 ++ l2) = allIds l1 ++ allIds l2.
Proof. unfold allIds. now rewrite allNodes_app, map_app. Qed.

Lemma allIds_node x : allIds [x] = id x :: allIds (children x).
Proof. destruct x as [i t cs]. rewrite allIds_cons. simpl. now rewrite app_nil_r. Qed.

Lemma getDescendantIds_allIds node :
  getDescendantIds node = allIds (children node).
Proof.
  destruct node as [i0 t0 forest]. simpl.
  induction forest as [|i t cs rest IHcs IHrest] using forest_ind; [reflexivity|].
  rewrite allIds_cons. cbn [flat_map id getDescendantIds].
  fold getDescendantIds. simpl. f_equal. f_equal; assumption.
Qed.

Lemma deleteNode_cons i t cs rest x :
  deleteNode (mkTocNode i t cs :: rest) x
  = if i =? x then deleteNode rest x
    else mkTocNode i t (deleteNode cs x) :: deleteNode rest x.
Proof. unfold deleteNode. simpl. now destruct (i =? x). Qed.

(** The definition of [deleteNode], in the form the source has it. *)
Lemma deleteNode_eq nodes nodeId :
  deleteNode nodes nodeId
  = map (fun node =>
           mkTocNode (id node) (title node) (deleteNode (children node) nodeId))
        (filter (fun node => negb (id node =? nodeId)) nodes).
Proof.
  induction nodes as [|[i t cs] rest IH]; [reflexivity|].
  rewrite deleteNode_cons. simpl. destruct (i =? nodeId); simpl; now rewrite IH.
Qed.

Lemma updateNodeTitle_cons i t cs rest x newTitle :
  updateNodeTitle (mkTocNode i t cs :: rest) x newTitle
  = (if i =? x then mkTocNode i newTitle cs
     else mkTocNode i t (updateNodeTitle cs x newTitle))
    :: updateNodeTitle rest x newTitle.
Proof.
  unfold updateNodeTitle. simpl. destruct (i =? x); [reflexivity|].
  now destruct cs.
Qed.

Lemma addNode_cons i t cs rest p newNode :
  addNode (mkTocNode i t cs :: rest) (Some p) newNode
  = (if i =? p then mkTocNode i t (cs ++ [newNode])
     else mkTocNode i t (addNode cs (Some p) newNode))
    :: addNode rest (Some p) newNode.
Proof.
  unfold addNode. simpl. destruct (i =? p); [reflexivity|].
  now destruct cs.
Qed.

Lemma findNode_cons i t cs rest x :
  findNode (mkTocNode i t cs :: rest) x
  = if i =? x then Some (mkTocNode i t cs)
    else match findNode cs x with
         | Some found => Some found
         | None => findNode rest x
         end.
Proof. unfold findNode. simpl. now destruct (i =? x). Qed.

Lemma remove_cons i t cs rest x draggedNode :
  remove (mkTocNode i t cs :: rest) x draggedNode
  = if i =? x then remove rest x (Some (mkTocNode i t cs))
    else let (cs', d1) := remove cs x draggedNode in
         let (rest', d2) := remove rest x d1 in
         (mkTocNode i t cs' :: rest', d2).
Proof.
  unfold remove. simpl. destruct (i =? x).
  - now destruct (filter_with _ rest _).
  - destruct (filter_with _ cs _) as [cs' d1].
    now destruct (filter_with _ rest _).
Qed.

Lemma insert_cons i t cs rest x D pos :
  insert (mkTocNode i t cs :: rest) x D pos
  = if i =? x
    then match pos with
         | top => D :: mkTocNode i t cs :: insert rest x D pos
         | bottom => mkTocNode i t cs :: D :: insert rest x D pos
         end
    else mkTocNode i t (insert cs x D pos) :: insert rest x D pos.
Proof. unfold insert. simpl. destruct (i =? x); [now destruct pos|reflexivity]. Qed.

Lemma includes_In ids x : includes ids x = true <-> In x ids.
Proof.
  unfold includes. rewrite existsb_exists. split.
  - intros [y [Hy E]]. apply String.eqb_eq in E. now subst.
  - intros H. exists x. split; [assumption|apply String.eqb_refl].
Qed.

(** ** Presence and occurrence *)

Lemma present_occurs X forest : present X forest -> occurs (id X) forest.
Proof. unfold present, occurs, allIds. apply in_map. Qed.

Lemma occurs_cons x i t cs rest :
  occurs x (mkTocNode i t cs :: rest) <-> i = x \/ occurs x cs \/ occurs x rest.
Proof. unfold occurs. rewrite allIds_cons. simpl. now rewrite in_app_iff. Qed.

Lemma present_cons X i t cs rest :
  present X (mkTocNode i t cs :: rest)
  <-> mkTocNode i t cs = X \/ present X cs \/ present X rest.
Proof. unfold present. rewrite allNodes_cons. simpl. now rewrite in_app_iff. Qed.

Lemma uniqueIds_cons i t cs rest :
  uniqueIds (mkTocNode i t cs :: rest)
  <-> ~ occurs i cs /\ ~ occurs i rest /\ uniqueIds cs /\ uniqueIds rest
      /\ (forall x, occurs x cs -> ~ occurs x rest).
Proof.
  unfold uniqueIds, occurs. rewrite allIds_cons, NoDup_cons_iff, in_app_iff.
  split.
  - intros [Hi Hnd]. pose proof (NoDup_app_remove_l _ _ Hnd).
    pose proof (NoDup_app_remove_r _ _ Hnd).
    repeat split; try tauto.
    intros x Hx Hx'. apply in_split in Hx. destruct Hx as [a [b E]].
    rewrite E, <- app_assoc in Hnd. simpl in Hnd.
    apply NoDup_app_remove_l in Hnd. apply NoDup_cons_iff in Hnd.
    apply (proj1 Hnd). apply in_or_app. now right.
  - intros (H1 & H2 & H3 & H4 & H5). split; [tauto|].
    apply NoDup_app; assumption.
Qed.

Lemma occurs_dec x forest : {occurs x forest} + {~ occurs x forest}.
Proof. apply in_dec, string_dec. Qed.

Lemma occurs_present x forest :
  occurs x forest -> exists X, present X forest /\ id X = x.
Proof.
  unfold occurs, allIds, present. rewrite in_map_iff.
  intros [X [E H]]. now exists X.
Qed.

(** ** An id that occurs nowhere: every traversal leaves the forest as it is *)

Ltac absent_step H IHcs IHrest lemma i x :=
  rewrite lemma; rewrite occurs_cons in H;
  eqb_cases i x; [tauto|]; rewrite IHcs, IHrest by tauto; reflexivity.

Lemma deleteNode_absent forest x :
  ~ occurs x forest -> deleteNode forest x = forest.
Proof.
  induction forest as [|i t cs rest IHcs IHrest] using forest_ind;
    intros H; [reflexivity|].
  absent_step H IHcs IHrest deleteNode_cons i x.
Qed.

Lemma updateNodeTitle_absent forest x newTitle :
  ~ occurs x forest -> updateNodeTitle forest x newTitle = forest.
Proof.
  induction forest as [|i t cs rest IHcs IHrest] using forest_ind;
    intros H; [reflexivity|].
  absent_step H IHcs IHrest updateNodeTitle_cons i x.
Qed.

Lemma addNode_absent forest x newNode :
  ~ occurs x forest -> addNode forest (Some x) newNode = forest.
Proof.
  induction forest as [|i t cs rest IHcs IHrest] using forest_ind;
    intros H; [reflexivity|].
  absent_step H IHcs IHrest addNode_cons i x.
Qed.

Lemma insert_absent forest x D pos :
  ~ occurs x forest -> insert forest x D pos = forest.
Proof.
  induction forest as [|i t cs rest IHcs IHrest] using forest_ind;
    intros H; [reflexivity|].
  absent_step H IHcs IHrest insert_cons i x.
Qed.

Lemma findNode_absent forest x : ~ occurs x forest -> findNode forest x = None.
Proof.
  induction forest as [|i t cs rest IHcs IHrest] using forest_ind;
    intros H; [reflexivity|].
  absent_step H IHcs IHrest findNode_cons i x.
Qed.

Lemma remove_absent forest x draggedNode :
  ~ occurs x forest -> remove forest x draggedNode = (forest, draggedNode).
Proof.
  revert draggedNode.
  induction forest as [|i t cs rest IHcs IHrest] using forest_ind;
    intros draggedNode H; [reflexivity|].
  absent_step H IHcs IHrest remove_cons i x.
Qed.

(** The tree that [remove] returns is the one [deleteNode] returns. *)
Lemma remove_deleteNode forest x draggedNode :
  fst (remove forest x draggedNode) = deleteNode forest x.
Proof.
  revert draggedNode.
  induction forest as [|i t cs rest IHcs IHrest] using forest_ind;
    intros draggedNode; [reflexivity|].
  rewrite remove_cons, deleteNode_cons. eqb_cases i x; [apply IHrest|].
  specialize (IHcs draggedNode). destruct (remove cs x draggedNode) as [cs' d1].
  specialize (IHrest d1). destruct (remove rest x d1) as [rest' d2].
  simpl in *. congruence.
Qed.

(** ** Local edits *)

Lemma perm_under (before after inner part others : list string) (i : string) :
  Permutation inner (part ++ others) ->
  Permutation (before ++ i :: inner ++ after)
              (part ++ before ++ i :: others ++ after).
Proof.
  intros P. rewrite P, (Permutation_app_swap_app part).
  apply Permutation_app_head. rewrite <- app_assoc. apply Permutation_middle.
Qed.

Section LocalEdits.
Variable edit : TocNode -> list TocNode -> Prop.

Lemma editedAt_skip a forest forest' :
  editedAt edit forest forest' -> editedAt edit (a :: forest) (a :: forest').
Proof.
  intros H. destruct H as [before x xs after H | before i t cs cs' after H].
  - apply (edit_here edit (a :: before)), H.
  - apply (edit_below edit (a :: before)), H.
Qed.

Lemma editedAt_head x xs rest :
  edit x xs -> editedAt edit (x :: rest) (xs ++ rest).
Proof. apply (edit_here edit []). Qed.

Lemma editedAt_under i t cs cs' rest :
  editedAt edit cs cs' ->
  editedAt edit (mkTocNode i t cs :: rest) (mkTocNode i t cs' :: rest).
Proof. apply (edit_below edit []). Qed.

(** A local edit changes the ids locally: those of [x] give way to those
    of [xs]. *)
Lemma editedAt_ids forest forest' :
  editedAt edit forest forest' ->
  exists x xs others,
    edit x xs /\
    Permutation (allIds forest) (allIds [x] ++ others) /\
    Permutation (allIds forest') (allIds xs ++ others).
Proof.
  induction 1 as [before x xs after H
                 | before i t cs cs' after H (x & xs & others & He & P1 & P2)].
  - exists x, xs, (allIds before ++ allIds after). split; [assumption|].
    change (x :: after) with ([x] ++ after).
    rewrite !allIds_app. split; apply Permutation_app_swap_app.
  - exists x, xs, (allIds before ++ i :: others ++ allIds after).
    split; [assumption|].
    rewrite !allIds_app, !allIds_cons. split; now apply perm_under.
Qed.
End LocalEdits.

(** ** An id that occurs once: each traversal makes exactly one local edit *)

Ltac split_unique Hu cs rest :=
  let Hics := fresh "Hics" in
  let Hirest := fresh "Hirest" in
  let Hucs := fresh "Hucs" in
  let Hurest := fresh "Hurest" in
  let Hdisj := fresh "Hdisj" in
  apply uniqueIds_cons in Hu as (Hics & Hirest & Hucs & Hurest & Hdisj);
  assert (forall x, occurs x rest -> ~ occurs x cs)
    by (intros ? ? ?; eapply Hdisj; eassumption).

Lemma deleteNode_present forest X :
  uniqueIds forest -> present X forest ->
  editedAt (dropsNode X) forest (deleteNode forest (id X)).
Proof.
  induction forest as [|i t cs rest IHcs IHrest] using forest_ind;
    intros Hu Hp; [destruct Hp|].
  split_unique Hu cs rest. rewrite deleteNode_cons.
  apply present_cons in Hp as [E | [Hp | Hp]].
  - subst X. simpl. rewrite String.eqb_refl, deleteNode_absent by assumption.
    apply (editedAt_head _ _ []). now split.
  - pose proof (present_occurs _ _ Hp). eqb_cases i (id X); [congruence|].
    rewrite (deleteNode_absent rest) by auto. apply editedAt_under; auto.
  - pose proof (present_occurs _ _ Hp). eqb_cases i (id X); [congruence|].
    rewrite (deleteNode_absent cs) by auto. apply editedAt_skip; auto.
Qed.

Lemma updateNodeTitle_present forest X newTitle :
  uniqueIds forest -> present X forest ->
  editedAt (retitles X newTitle) forest
           (updateNodeTitle forest (id X) newTitle).
Proof.
  induction forest as [|i t cs rest IHcs IHrest] using forest_ind;
    intros Hu Hp; [destruct Hp|].
  split_unique Hu cs rest. rewrite updateNodeTitle_cons.
  apply present_cons in Hp as [E | [Hp | Hp]].
  - subst X. simpl. rewrite String.eqb_refl, updateNodeTitle_absent by assumption.
    apply (editedAt_head _ _ [_]). now split.
  - pose proof (present_occurs _ _ Hp). eqb_cases i (id X); [congruence|].
    rewrite (updateNodeTitle_absent rest) by auto. apply editedAt_under; auto.
  - pose proof (present_occurs _ _ Hp). eqb_cases i (id X); [congruence|].
    rewrite (updateNodeTitle_absent cs) by auto. apply editedAt_skip; auto.
Qed.

Lemma addNode_present forest p newNode :
  uniqueIds forest -> occurs p forest ->
  editedAt (appendsChild p newNode) forest (addNode forest (Some p) newNode).
Proof.
  induction forest as [|i t cs rest IHcs IHrest] using forest_ind;
    intros Hu Hp; [destruct Hp|].
  split_unique Hu cs rest. rewrite addNode_cons.
  apply occurs_cons in Hp as [E | [Hp | Hp]].
  - subst p. rewrite String.eqb_refl, addNode_absent by assumption.
    apply (editedAt_head _ _ [_]). now split.
  - eqb_cases i p; [congruence|].
    rewrite (addNode_absent rest) by auto. apply editedAt_under; auto.
  - eqb_cases i p; [congruence|].
    rewrite (addNode_absent cs) by auto. apply editedAt_skip; auto.
Qed.

Lemma insert_present forest targetId D pos :
  uniqueIds forest -> occurs targetId forest ->
  editedAt (splicesAt targetId D pos) forest (insert forest targetId D pos).
Proof.
  induction forest as [|i t cs rest IHcs IHrest] using forest_ind;
    intros Hu Hp; [destruct Hp|].
  split_unique Hu cs rest. rewrite insert_cons.
  apply occurs_cons in Hp as [E | [Hp | Hp]].
  - subst targetId. rewrite String.eqb_refl, insert_absent by assumption.
    destruct pos.
    + apply (editedAt_head _ _ [_; _]). now split.
    + apply (editedAt_head _ _ [_; _]). now split.
  - eqb_cases i targetId; [congruence|].
    rewrite (insert_absent rest) by auto. apply editedAt_under; auto.
  - eqb_cases i targetId; [congruence|].
    rewrite (insert_absent cs) by auto. apply editedAt_skip; auto.
Qed.

Lemma findNode_present forest X :
  uniqueIds forest -> present X forest -> findNode forest (id X) = Some X.
Proof.
  induction forest as [|i t cs rest IHcs IHrest] using forest_ind;
    intros Hu Hp; [destruct Hp|].
  split_unique Hu cs rest. rewrite findNode_cons.
  apply present_cons in Hp as [E | [Hp | Hp]].
  - subst X. simpl. now rewrite String.eqb_refl.
  - pose proof (present_occurs _ _ Hp). eqb_cases i (id X); [congruence|].
    now rewrite IHcs.
  - pose proof (present_occurs _ _ Hp). eqb_cases i (id X); [congruence|].
    rewrite (findNode_absent cs) by auto. auto.
Qed.

Lemma remove_present forest X draggedNode :
  uniqueIds forest -> present X forest ->
  remove forest (id X) draggedNode = (deleteNode forest (id X), Some X).
Proof.
  revert draggedNode.
  induction forest as [|i t cs rest IHcs IHrest] using forest_ind;
    intros draggedNode Hu Hp; [destruct Hp|].
  split_unique Hu cs rest. rewrite remove_cons, deleteNode_cons.
  apply present_cons in Hp as [E | [Hp | Hp]].
  - subst X. simpl. rewrite String.eqb_refl.
    now rewrite remove_absent, deleteNode_absent by assumption.
  - pose proof (present_occurs _ _ Hp). eqb_cases i (id X); [congruence|].
    rewrite IHcs by assumption.
    now rewrite remove_absent, (deleteNode_absent rest) by auto.
  - pose proof (present_occurs _ _ Hp). eqb_cases i (id X); [congruence|].
    rewrite (remove_absent cs), (deleteNode_absent cs) by auto.
    now rewrite IHrest by assumption.
Qed.

(** What [remove] leaves in [draggedNode] is a node of the forest bearing
    the id asked for, unless nothing was assigned. *)
Lemma remove_dragged forest x draggedNode D :
  snd (remove forest x draggedNode) = Some D ->
  draggedNode = Some D \/ (present D forest /\ id D = x).
Proof.
  revert draggedNode.
  induction forest as [|i t cs rest IHcs IHrest] using forest_ind;
    intros draggedNode H; [now left|].
  rewrite remove_cons in H. setoid_rewrite present_cons.
  eqb_cases i x.
  - apply IHrest in H as [H | H]; [|tauto]. injection H as <-. auto.
  - specialize (IHcs draggedNode). destruct (remove cs x draggedNode) as [cs' d1].
    specialize (IHrest d1). destruct (remove rest x d1) as [rest' d2].
    simpl in *. apply IHrest in H as [H | H]; [|tauto].
    apply IHcs in H. tauto.
Qed.

(** ** Identifiers before and after an operation *)

Lemma allIds_two a b : allIds [a; b] = allIds [a] ++ allIds [b].
Proof. exact (allIds_app [a] [b]). Qed.

Lemma allIds_appended x newNode :
  allIds [mkTocNode (id x) (title x) (children x ++ [newNode])]
  = allIds [x] ++ allIds [newNode].
Proof.
  destruct x as [i t cs]. simpl. rewrite !allIds_cons, allIds_app.
  change (allIds []) with (@nil string). now rewrite !app_nil_r.
Qed.

Lemma allIds_updateNodeTitle forest x newTitle :
  allIds (updateNodeTitle forest x newTitle) = allIds forest.
Proof.
  induction forest as [|i t cs rest IHcs IHrest] using forest_ind; [reflexivity|].
  rewrite updateNodeTitle_cons.
  eqb_cases i x; rewrite !allIds_cons; congruence.
Qed.

Lemma deleteNode_ids forest X :
  uniqueIds forest -> present X forest ->
  Permutation (allIds forest) (allIds [X] ++ allIds (deleteNode forest (id X))).
Proof.
  intros Hu Hp.
  destruct (editedAt_ids _ _ _ (deleteNode_present _ _ Hu Hp))
    as (x & xs & others & [-> ->] & P1 & P2).
  now rewrite P1, P2.
Qed.

Lemma addNode_ids forest p newNode :
  uniqueIds forest -> occurs p forest ->
  Permutation (allIds (addNode forest (Some p) newNode))
              (allIds forest ++ allIds [newNode]).
Proof.
  intros Hu Hp.
  destruct (editedAt_ids _ _ _ (addNode_present _ _ newNode Hu Hp))
    as (x & xs & others & [_ ->] & P1 & P2).
  rewrite P1, P2, allIds_appended, <- !app_assoc.
  apply Permutation_app_head, Permutation_app_comm.
Qed.

Lemma insert_ids forest targetId D pos :
  uniqueIds forest -> occurs targetId forest ->
  Permutation (allIds (insert forest targetId D pos))
              (allIds [D] ++ allIds forest).
Proof.
  intros Hu Hp.
  destruct (editedAt_ids _ _ _ (insert_present _ _ D pos Hu Hp))
    as (x & xs & others & [_ ->] & P1 & P2).
  rewrite P1, P2. destruct pos; rewrite allIds_two, <- app_assoc.
  - reflexivity.
  - apply Permutation_app_swap_app.
Qed.

(** ** Invariant 1 is kept by every operation *)

Lemma uniqueIds_updateNodeTitle forest x newTitle :
  uniqueIds forest -> uniqueIds (updateNodeTitle forest x newTitle).
Proof. unfold uniqueIds. now rewrite allIds_updateNodeTitle. Qed.

Lemma uniqueIds_deleteNode forest x :
  uniqueIds forest -> uniqueIds (deleteNode forest x).
Proof.
  intros Hu. destruct (occurs_dec x forest) as [Ho | Ho].
  - apply occurs_present in Ho as (X & Hp & <-).
    pose proof (deleteNode_ids _ _ Hu Hp) as P.
    unfold uniqueIds in *. eapply Permutation_NoDup in Hu; [|exact P].
    eapply NoDup_app_remove_l, Hu.
  - now rewrite deleteNode_absent.
Qed.

Lemma uniqueIds_append forest newNode :
  uniqueIds forest -> freshNode forest newNode ->
  NoDup (allIds forest ++ allIds [newNode]).
Proof.
  intros Hu [Hn Hfresh]. apply NoDup_app; [assumption..|].
  intros i Hi Hi'. exact (Hfresh i Hi' Hi).
Qed.

Lemma uniqueIds_addNode forest parentId newNode :
  uniqueIds forest -> freshNode forest newNode ->
  uniqueIds (addNode forest parentId newNode).
Proof.
  intros Hu Hf. pose proof (uniqueIds_append _ _ Hu Hf) as Hnd.
  destruct parentId as [p|].
  - destruct (occurs_dec p forest) as [Ho | Ho].
    + unfold uniqueIds. eapply Permutation_NoDup; [|exact Hnd].
      apply Permutation_sym, addNode_ids; assumption.
    + now rewrite addNode_absent.
  - unfold uniqueIds, addNode. now rewrite allIds_app.
Qed.

Lemma uniqueIds_handleMoveNode forest draggedId targetId position :
  uniqueIds forest ->
  uniqueIds (nodesAfter forest
               (handleMoveNode forest draggedId targetId position)).
Proof.
  intros Hu. unfold handleMoveNode, deepCopy.
  destruct (descendantGuard forest draggedId targetId); [assumption|].
  pose proof (remove_deleteNode forest draggedId None) as Htree.
  pose proof (remove_dragged forest draggedId None) as Hdragged.
  destruct (remove forest draggedId None) as [treeWithoutDragged [D|]];
    [|assumption].
  simpl in *. subst treeWithoutDragged.
  destruct (Hdragged D eq_refl) as [E | [Hp <-]]; [discriminate|].
  pose proof (uniqueIds_deleteNode _ (id D) Hu) as Hu'.
  destruct (occurs_dec targetId (deleteNode forest (id D))) as [Ho | Ho].
  - unfold uniqueIds. eapply Permutation_NoDup; [|exact Hu].
    rewrite insert_ids by assumption. now rewrite <- deleteNode_ids.
  - now rewrite insert_absent.
Qed.

Lemma uniqueIds_applyOp forest op :
  uniqueIds forest ->
  match op with Add _ newNode => freshNode forest newNode | _ => True end ->
  uniqueIds (applyOp forest op).
Proof.
  intros Hu Hf. destruct op; simpl.
  - now apply uniqueIds_addNode.
  - now apply uniqueIds_updateNodeTitle.
  - now apply uniqueIds_deleteNode.
  - now apply uniqueIds_handleMoveNode.
Qed.

Lemma uniqueIds_applyOps ops : forall forest,
  uniqueIds forest -> freshOps forest ops -> uniqueIds (applyOps forest ops).
Proof.
  induction ops as [|op rest IH]; intros forest Hu Hf; [assumption|].
  destruct Hf as [Hop Hrest]. apply IH; [|assumption].
  now apply uniqueIds_applyOp.
Qed.

(** Invariant 1 gives Invariant 2: with pairwise distinct ids, no node has
    its own id below it. *)
Lemma uniqueIds_acyclic forest : uniqueIds forest -> acyclic forest.
Proof.
  intros Hu X Hp Hin.
  pose proof (deleteNode_ids _ _ Hu Hp) as P.
  eapply Permutation_NoDup in Hu; [|exact P].
  apply NoDup_app_remove_r in Hu. rewrite allIds_node in Hu.
  apply NoDup_cons_iff in Hu. apply (proj1 Hu).
  now rewrite <- getDescendantIds_allIds.
Qed.

Lemma NoDup_app_disjoint (l1 l2 : list string) x :
  NoDup (l1 ++ l2) -> In x l1 -> ~ In x l2.
Proof.
  intros Hnd H1 H2. apply in_split in H1 as (a & b & ->).
  rewrite <- app_assoc in Hnd. apply NoDup_app_remove_l in Hnd.
  simpl in Hnd. apply NoDup_cons_iff in Hnd.
  apply (proj1 Hnd), in_or_app. now right.
Qed.

(** The ids left by a delete: those of the forest that are not in the
    deleted subtree. *)
Lemma deleteNode_occurs forest X j :
  uniqueIds forest -> present X forest ->
  occurs j (deleteNode forest (id X)) <-> occurs j forest /\ ~ occurs j [X].
Proof.
  intros Hu Hp. pose proof (deleteNode_ids _ _ Hu Hp) as P.
  pose proof (Permutation_NoDup P Hu) as Hnd. unfold occurs. split.
  - intros Hj. split.
    + apply (Permutation_in _ (Permutation_sym P)), in_or_app. now right.
    + intros Hj'. exact (NoDup_app_disjoint _ _ _ Hnd Hj' Hj).
  - intros [Hj Hj']. apply (Permutation_in _ P), in_app_or in Hj. tauto.
Qed.

(** ** Counting an id *)

Lemma countId_cons x i t cs rest :
  countId x (mkTocNode i t cs :: rest)
  = (if string_dec i x then 1 else 0) + countId x cs + countId x rest.
Proof.
  unfold countId. rewrite allIds_cons. cbn [count_occ].
  rewrite count_occ_app. destruct (string_dec i x); lia.
Qed.

Lemma countId_app x l1 l2 : countId x (l1 ++ l2) = countId x l1 + countId x l2.
Proof. unfold countId. now rewrite allIds_app, count_occ_app. Qed.

Lemma countId_occurs x forest : occurs x forest <-> 1 <= countId x forest.
Proof. apply (count_occ_In string_dec). Qed.

Lemma addNode_countId forest p newNode x :
  countId x forest <= countId x (addNode forest (Some p) newNode)
  /\ (occurs p forest ->
      countId x forest + countId x [newNode]
      <= countId x (addNode forest (Some p) newNode)).
Proof.
  induction forest as [|i t cs rest [Gcs Scs] [Grest Srest]] using forest_ind.
  - split; [reflexivity|intros []].
  - rewrite addNode_cons, occurs_cons. eqb_cases i p.
    + rewrite !countId_cons, countId_app. split; intros; lia.
    + rewrite !countId_cons. split; [lia|].
      intros [E | [H | H]]; [congruence|specialize (Scs H)|specialize (Srest H)];
        lia.
Qed.

Lemma addNode_inserts forest p newNode :
  occurs p forest -> present newNode (addNode forest (Some p) newNode).
Proof.
  induction forest as [|i t cs rest IHcs IHrest] using forest_ind;
    intros H; [destruct H|].
  rewrite addNode_cons. apply occurs_cons in H. eqb_cases i p.
  - apply present_cons. right. left. unfold present.
    rewrite allNodes_app. apply in_or_app. right.
    destruct newNode. now left.
  - apply present_cons. right. destruct H as [E | [H | H]]; [congruence|auto..].
Qed.

Lemma present_last forest newNode : present newNode (forest ++ [newNode]).
Proof.
  unfold present. rewrite allNodes_app. apply in_or_app. right.
  destruct newNode. now left.
Qed.

Lemma countId_self node : 1 <= countId (id node) [node].
Proof. apply countId_occurs. unfold occurs. rewrite allIds_node. now left. Qed.

Lemma uniqueIds_countId forest x : uniqueIds forest -> countId x forest <= 1.
Proof. intros Hu. now apply (NoDup_count_occ string_dec). Qed.

(** ** Why Invariant 1 is assumed below

    An operation receives an id, not a node.  When two nodes bear the same
    id, [findNode] answers with the first in document order while [remove],
    [deleteNode], [updateNodeTitle] and [addNode] act on every bearer they
    reach; the properties about "the node X" are therefore stated for
    forests whose ids are pairwise distinct. *)

Example twins_findNode : findNode twins "a" = Some (mkTocNode "a" "first" []).
Proof. reflexivity. Qed.

Example twins_handleMoveNode : handleMoveNode twins "a" "b" top = SetNodes [].
Proof. reflexivity. Qed.

Example twins_deleteNode : deleteNode twins "a" = [].
Proof. reflexivity. Qed.

Example twins_updateNodeTitle :
  updateNodeTitle twins "a" "T"
  = [ mkTocNode "a" "T" []; mkTocNode "a" "T" [ mkTocNode "b" "B" [] ] ].
Proof. reflexivity. Qed.

(** * The properties of the specification *)

Lemma scenario_uniqueIds : uniqueIds scenario.
Proof.
  unfold uniqueIds. simpl. repeat constructor; simpl; intuition discriminate.
Qed.

Lemma initialData_uniqueIds : uniqueIds initialData.
Proof.
  unfold uniqueIds. simpl. repeat constructor; simpl; intuition discriminate.
Qed.

(** ** Move *)

(** C1, counterexample.  The id ["9"] occurs nowhere in the scenario forest,
    yet moving ["1-1"] next to it replaces the forest by one without
    ["1-1"]: the dragged node is detached and not put back. *)
Lemma handleMoveNode_stale_target_loses_dragged :
  ~ occurs "9" scenario /\
  handleMoveNode scenario "1-1" "9" top = SetNodes [mkTocNode "1" "A" []] /\
  nodesAfter scenario (handleMoveNode scenario "1-1" "9" top) <> scenario.
Proof.
  split; [|split].
  - unfold occurs. simpl. intuition discriminate.
  - reflexivity.
  - discriminate.
Qed.

(** C1, as amended.  When [draggedId] occurs nowhere in the forest, whatever
    the target and the position, [handleMoveNode] finds no dragged node: it
    ends without a state update and without a message, and the forest is the
    input forest. *)
Theorem handleMoveNode_dragged_absent forest draggedId targetId position :
  ~ occurs draggedId forest ->
  handleMoveNode forest draggedId targetId position = NoDraggedNode /\
  nodesAfter forest (handleMoveNode forest draggedId targetId position) = forest.
Proof.
  intros H. unfold handleMoveNode, descendantGuard, deepCopy.
  rewrite findNode_absent, remove_absent by assumption. now split.
Qed.

Lemma handleMoveNode_dragged_absent_witness :
  ~ occurs "9" scenario /\
  handleMoveNode scenario "9" "1" bottom = NoDraggedNode /\
  nodesAfter scenario (handleMoveNode scenario "9" "1" bottom) = scenario.
Proof.
  assert (H : ~ occurs "9" scenario)
    by (unfold occurs; simpl; intuition discriminate).
  split; [exact H|].
  exact (handleMoveNode_dragged_absent scenario "9" "1" bottom H).
Defined.

(** C2, counterexample.  [handleMoveNode] has no check of its own for a node
    dropped on itself: the node ["1-1"] of the scenario forest, moved onto
    ["1-1"], is removed with nothing put back. *)
Lemma handleMoveNode_self_target_loses_node :
  present (mkTocNode "1-1" "B" []) scenario /\
  handleMoveNode scenario "1-1" "1-1" top = SetNodes [mkTocNode "1" "A" []] /\
  nodesAfter scenario (handleMoveNode scenario "1-1" "1-1" top) <> scenario.
Proof.
  split; [|split].
  - unfold present. simpl. auto.
  - reflexivity.
  - discriminate.
Qed.

(** C2, as amended.  The self-target check is the guard of [handleDrop]: a
    drop of a node onto itself, at any drop position, does not reach
    [handleMoveNode] and leaves the forest as it is, the node and its
    subtree included. *)
Theorem handleDrop_self_target forest X dropPosition :
  handleDrop forest (id X) X dropPosition = forest.
Proof.
  unfold handleDrop. destruct dropPosition as [pos|]; [|reflexivity].
  now rewrite String.eqb_refl, andb_false_r.
Qed.

(** C3.  In a forest with pairwise distinct ids, moving a node [X] next to
    any id [d] of its descendant set, before or after, is refused with the
    console message, and the forest stays the input forest. *)
Theorem handleMoveNode_descendant_target forest X d position :
  uniqueIds forest -> present X forest -> In d (getDescendantIds X) ->
  handleMoveNode forest (id X) d position
  = ConsoleError "Cannot move a node into one of its own descendants." /\
  nodesAfter forest (handleMoveNode forest (id X) d position) = forest.
Proof.
  intros Hu Hp Hd. unfold handleMoveNode, descendantGuard.
  rewrite (findNode_present _ _ Hu Hp).
  apply includes_In in Hd. rewrite Hd. now split.
Qed.

Lemma handleMoveNode_descendant_target_witness :
  uniqueIds initialData /\
  present chapter1 initialData /\
  In "1-2-2" (getDescendantIds chapter1) /\
  handleMoveNode initialData "1" "1-2-2" bottom
  = ConsoleError "Cannot move a node into one of its own descendants." /\
  nodesAfter initialData (handleMoveNode initialData "1" "1-2-2" bottom)
  = initialData.
Proof.
  assert (Hp : present chapter1 initialData) by (unfold present; simpl; auto).
  assert (Hd : In "1-2-2" (getDescendantIds chapter1)) by (simpl; auto).
  split; [exact initialData_uniqueIds|].
  split; [exact Hp|]. split; [exact Hd|].
  exact (handleMoveNode_descendant_target initialData chapter1 "1-2-2" bottom
           initialData_uniqueIds Hp Hd).
Defined.

(** C5.  In a forest with pairwise distinct ids where the dragged node [D]
    and [targetId] both occur, [targetId] being neither [D]'s id nor in its
    descendant set, [handleMoveNode] sets the forest to [result], reached in
    two local edits: [D], with its subtree, is dropped from the sequence
    that holds it, and in what is left the element bearing [targetId] is
    replaced by [D] followed by it ([top]) or by it followed by [D]
    ([bottom]).  On the scenario forest, moving ["1-1"] before ["1"] makes
    ["1-1"] a root immediately before ["1"]. *)
Theorem handleMoveNode_splices :
  (forall forest D targetId position,
      uniqueIds forest -> present D forest -> occurs targetId forest ->
      targetId <> id D -> ~ In targetId (getDescendantIds D) ->
      exists without result,
        editedAt (dropsNode D) forest without /\
        handleMoveNode forest (id D) targetId position = SetNodes result /\
        editedAt (splicesAt targetId D position) without result)
  /\ handleMoveNode scenario "1-1" "1" top
     = SetNodes [mkTocNode "1-1" "B" []; mkTocNode "1" "A" []].
Proof.
  split; [|reflexivity].
  intros forest D targetId position Hu Hp Ho Hne Hnd.
  exists (deleteNode forest (id D)),
         (insert (deleteNode forest (id D)) targetId D position).
  split; [now apply deleteNode_present|]. split.
  - unfold handleMoveNode, descendantGuard, deepCopy.
    rewrite (findNode_present _ _ Hu Hp).
    destruct (includes (getDescendantIds D) targetId) eqn:E.
    + apply includes_In in E. contradiction.
    + now rewrite (remove_present _ _ None Hu Hp).
  - apply insert_present; [now apply uniqueIds_deleteNode|].
    apply deleteNode_occurs; [assumption..|]. split; [assumption|].
    unfold occurs. rewrite allIds_node, <- getDescendantIds_allIds.
    simpl. intuition congruence.
Qed.

Lemma handleMoveNode_splices_witness :
  uniqueIds scenario /\
  present (mkTocNode "1-1" "B" []) scenario /\
  occurs "1" scenario /\
  exists without result,
    editedAt (dropsNode (mkTocNode "1-1" "B" [])) scenario without /\
    handleMoveNode scenario "1-1" "1" top = SetNodes result /\
    editedAt (splicesAt "1" (mkTocNode "1-1" "B" []) top) without result.
Proof.
  split; [exact scenario_uniqueIds|].
  split; [unfold present; simpl; auto|].
  split; [unfold occurs; simpl; auto|].
  refine (proj1 handleMoveNode_splices scenario (mkTocNode "1-1" "B" []) "1" top
            scenario_uniqueIds _ _ _ _).
  - unfold present. simpl. auto.
  - unfold occurs. simpl. auto.
  - simpl. discriminate.
  - simpl. auto.
Defined.

(** ** Acyclicity *)

(** C4.  From a forest that satisfies the invariants, every sequence of
    Add, Rename, Delete and Move whose Adds bring fresh nodes (ids pairwise
    distinct and not in the forest) ends in an acyclic forest: no node has
    its own id among the ids reachable from it through [children]. *)
Theorem applyOps_acyclic forest ops :
  uniqueIds forest -> freshOps forest ops -> acyclic (applyOps forest ops).
Proof.
  intros Hu Hf. now apply uniqueIds_acyclic, uniqueIds_applyOps.
Qed.

Lemma applyOps_acyclic_witness :
  uniqueIds scenario /\ freshOps scenario sampleOps /\
  acyclic (applyOps scenario sampleOps).
Proof.
  assert (Hf : freshOps scenario sampleOps).
  { simpl. unfold freshNode, uniqueIds, occurs. simpl.
    repeat split; try (repeat constructor; simpl; intuition discriminate);
      intros i [<- | []]; intuition discriminate. }
  split; [exact scenario_uniqueIds|]. split; [exact Hf|].
  exact (applyOps_acyclic scenario sampleOps scenario_uniqueIds Hf).
Defined.

(** ** Delete *)

(** C6.  In a forest with pairwise distinct ids, deleting a node [X] of the
    forest by its id is one local edit: [X], and with it its whole subtree,
    is dropped from the sequence that holds it, and nothing else is removed,
    added, retitled or reordered.  The ids left are those of the forest that
    are neither [X]'s nor a descendant's. *)
Theorem deleteNode_cascades forest X :
  uniqueIds forest -> present X forest ->
  editedAt (dropsNode X) forest (deleteNode forest (id X)) /\
  forall j, occurs j (deleteNode forest (id X))
            <-> occurs j forest /\ j <> id X /\ ~ In j (getDescendantIds X).
Proof.
  intros Hu Hp. split; [now apply deleteNode_present|].
  intros j. rewrite (deleteNode_occurs _ _ j Hu Hp).
  unfold occurs at 2. rewrite allIds_node, <- getDescendantIds_allIds.
  simpl. intuition congruence.
Qed.

Lemma deleteNode_cascades_witness :
  uniqueIds initialData /\ present chapter1 initialData /\
  editedAt (dropsNode chapter1) initialData (deleteNode initialData "1") /\
  forall j, occurs j (deleteNode initialData "1")
            <-> occurs j initialData /\ j <> "1"
                /\ ~ In j (getDescendantIds chapter1).
Proof.
  assert (Hp : present chapter1 initialData) by (unfold present; simpl; auto).
  split; [exact initialData_uniqueIds|]. split; [exact Hp|].
  exact (deleteNode_cascades initialData chapter1 initialData_uniqueIds Hp).
Defined.

(** ** Add *)

(** C7.  With a null [parentId], [addNode] appends the new node at the end
    of the root sequence.  With a [parentId] that occurs in a forest of
    pairwise distinct ids, it is one local edit: the node bearing
    [parentId] is replaced by itself with the new node appended after its
    prior children, which keep their order; everything else is unchanged. *)
Theorem addNode_appends forest newNode :
  addNode forest None newNode = forest ++ [newNode] /\
  forall parentId,
    uniqueIds forest -> occurs parentId forest ->
    editedAt (appendsChild parentId newNode) forest
             (addNode forest (Some parentId) newNode).
Proof.
  split; [reflexivity|]. intros parentId Hu Ho. now apply addNode_present.
Qed.

Lemma addNode_appends_witness :
  uniqueIds scenario /\ occurs "1" scenario /\
  addNode scenario (Some "1") (mkTocNode "7" "New Section" [])
  = [ mkTocNode "1" "A"
        [ mkTocNode "1-1" "B" []; mkTocNode "7" "New Section" [] ] ] /\
  editedAt (appendsChild "1" (mkTocNode "7" "New Section" [])) scenario
           (addNode scenario (Some "1") (mkTocNode "7" "New Section" [])).
Proof.
  assert (Ho : occurs "1" scenario) by (unfold occurs; simpl; auto).
  split; [exact scenario_uniqueIds|]. split; [exact Ho|].
  split; [reflexivity|].
  exact (proj2 (addNode_appends scenario (mkTocNode "7" "New Section" []))
           "1" scenario_uniqueIds Ho).
Defined.

(** C10.  [addNode] never looks at the new node's id.  Whenever that id
    already occurs in the forest, and [parentId] is null or occurs in the
    forest, the new node is in the result and its id occurs there at least
    twice: the result breaks Invariant 1. *)
Theorem addNode_duplicates_id forest parentId newNode :
  occurs (id newNode) forest ->
  match parentId with Some p => occurs p forest | None => True end ->
  present newNode (addNode forest parentId newNode) /\
  2 <= countId (id newNode) (addNode forest parentId newNode) /\
  ~ uniqueIds (addNode forest parentId newNode).
Proof.
  intros Hx Hparent.
  assert (H2 : 2 <= countId (id newNode) (addNode forest parentId newNode)).
  { apply countId_occurs in Hx. pose proof (countId_self newNode).
    destruct parentId as [p|].
    - pose proof (proj2 (addNode_countId forest p newNode (id newNode)) Hparent).
      lia.
    - unfold addNode. rewrite countId_app. lia. }
  split; [|split; [exact H2|]].
  - destruct parentId as [p|]; [now apply addNode_inserts|apply present_last].
  - intros Hu. apply (uniqueIds_countId _ (id newNode)) in Hu. lia.
Qed.

Lemma addNode_duplicates_id_witness :
  occurs "1-1" scenario /\ occurs "1" scenario /\
  addNode scenario (Some "1") (mkTocNode "1-1" "New Section" [])
  = [ mkTocNode "1" "A"
        [ mkTocNode "1-1" "B" []; mkTocNode "1-1" "New Section" [] ] ] /\
  present (mkTocNode "1-1" "New Section" [])
          (addNode scenario (Some "1") (mkTocNode "1-1" "New Section" [])) /\
  2 <= countId "1-1"
         (addNode scenario (Some "1") (mkTocNode "1-1" "New Section" [])) /\
  ~ uniqueIds (addNode scenario (Some "1") (mkTocNode "1-1" "New Section" [])).
Proof.
  assert (Hx : occurs "1-1" scenario) by (unfold occurs; simpl; auto).
  assert (Hp : occurs "1" scenario) by (unfold occurs; simpl; auto).
  split; [exact Hx|]. split; [exact Hp|]. split; [reflexivity|].
  exact (addNode_duplicates_id scenario (Some "1")
           (mkTocNode "1-1" "New Section" []) Hx Hp).
Defined.

(** Two [handleAddChild] calls within one clock reading give both new nodes
    the same id. *)
Lemma handleAddChild_same_stamp forest parentId stamp :
  ~ uniqueIds (handleAddChild (handleAddChild forest None stamp) parentId stamp)
  \/ exists p, parentId = Some p /\ ~ occurs p (handleAddChild forest None stamp).
Proof.
  set (first := handleAddChild forest None stamp).
  assert (Hx : occurs stamp first).
  { apply present_occurs with (X := mkTocNode stamp "New Section" []).
    apply present_last. }
  destruct parentId as [p|].
  - destruct (occurs_dec p first) as [Ho | Ho]; [left|right; now exists p].
    intros Hu. apply (uniqueIds_countId _ stamp) in Hu.
    pose proof (proj2 (addNode_countId first p
                         (mkTocNode stamp "New Section" []) stamp) Ho).
    pose proof (countId_self (mkTocNode stamp "New Section" [])).
    apply countId_occurs in Hx. unfold handleAddChild at 1 in Hu.
    simpl id in *. lia.
  - left. intros Hu. apply (uniqueIds_countId _ stamp) in Hu.
    unfold handleAddChild at 1, addNode in Hu. rewrite countId_app in Hu.
    pose proof (countId_self (mkTocNode stamp "New Section" [])).
    apply countId_occurs in Hx. simpl id in *. lia.
Qed.

(** ** Unknown ids *)

(** C8.  For an id that occurs nowhere in the forest, [addNode] under that
    parent id, [updateNodeTitle] and [deleteNode] each return the input
    forest; the three are total functions, so nothing is raised. *)
Theorem absent_id_no_op forest x newNode newTitle :
  ~ occurs x forest ->
  addNode forest (Some x) newNode = forest /\
  updateNodeTitle forest x newTitle = forest /\
  deleteNode forest x = forest.
Proof.
  intros H. split; [|split].
  - now apply addNode_absent.
  - now apply updateNodeTitle_absent.
  - now apply deleteNode_absent.
Qed.

Lemma absent_id_no_op_witness :
  ~ occurs "nonexistent" initialData /\
  addNode initialData (Some "nonexistent") (mkTocNode "7" "New Section" [])
  = initialData /\
  updateNodeTitle initialData "nonexistent" "X" = initialData /\
  deleteNode initialData "nonexistent" = initialData.
Proof.
  assert (H : ~ occurs "nonexistent" initialData)
    by (unfold occurs; simpl; intuition discriminate).
  split; [exact H|].
  exact (absent_id_no_op initialData "nonexistent"
           (mkTocNode "7" "New Section" []) "X" H).
Defined.

(** ** Rename *)

(** C9.  In a forest with pairwise distinct ids, renaming a node [X] of the
    forest to any string, the empty one included, is one local edit: [X] is
    replaced by the node with [X]'s id, the new title and [X]'s children;
    every other node and the order of all sequences are unchanged. *)
Theorem updateNodeTitle_retitles forest X newTitle :
  uniqueIds forest -> present X forest ->
  editedAt (retitles X newTitle) forest
           (updateNodeTitle forest (id X) newTitle).
Proof. intros Hu Hp. now apply updateNodeTitle_present. Qed.

Lemma updateNodeTitle_retitles_witness :
  uniqueIds scenario /\ present (mkTocNode "1-1" "B" []) scenario /\
  updateNodeTitle scenario "1-1" EmptyString = [ mkTocNode "1" "A" [ mkTocNode "1-1" EmptyString [] ] ] /\
  editedAt (retitles (mkTocNode "1-1" "B" []) EmptyString) scenario
           (updateNodeTitle scenario "1-1" EmptyString).
Proof.
  assert (Hp : present (mkTocNode "1-1" "B" []) scenario)
    by (unfold present; simpl; auto).
  split; [exact scenario_uniqueIds|]. split; [exact Hp|].
  split; [reflexivity|].
  exact (updateNodeTitle_retitles scenario (mkTocNode "1-1" "B" []) EmptyString
           scenario_uniqueIds Hp).
Defined.

(** * Further properties of the tree functions *)

(** ** Labels *)

Lemma allLabels_cons i t cs rest :
  allLabels (mkTocNode i t cs :: rest)
  = (i, t) :: allLabels cs ++ allLabels rest.
Proof. unfold allLabels. rewrite allNodes_cons. simpl. now rewrite map_app. Qed.

Lemma allLabels_app l1 l2 : allLabels (l1 ++ l2) = allLabels l1 ++ allLabels l2.
Proof. unfold allLabels. now rewrite allNodes_app, map_app. Qed.

Lemma allLabels_node x : allLabels [x] = label x :: allLabels (children x).
Proof.
  destruct x as [i t cs]. rewrite allLabels_cons. simpl.
  change (allLabels []) with (@nil (string * string)). now rewrite app_nil_r.
Qed.

Lemma allIds_allLabels forest : allIds forest = map fst (allLabels forest).
Proof.
  unfold allIds, allLabels. rewrite map_map. apply map_ext.
  now intros [i t cs].
Qed.

Lemma In_allLabels_cons l i t cs rest :
  In l (allLabels (mkTocNode i t cs :: rest))
  <-> (i, t) = l \/ In l (allLabels cs) \/ In l (allLabels rest).
Proof. rewrite allLabels_cons. simpl. now rewrite in_app_iff. Qed.

Lemma present_labels X forest :
  present X forest -> incl (allLabels [X]) (allLabels forest).
Proof.
  induction forest as [|i t cs rest IHcs IHrest] using forest_ind;
    intros Hp; [destruct Hp|].
  intros l Hl. apply In_allLabels_cons.
  apply present_cons in Hp as [E | [Hp | Hp]].
  - subst X. now apply In_allLabels_cons in Hl as [Hl | [Hl | []]]; auto.
  - right. left. now apply IHcs.
  - right. right. now apply IHrest.
Qed.

(** ** findNode *)

(** X1.  [findNode] is the search in document order: its answer is the
    first node of the forest, parents before children and earlier siblings
    first, whose id is the one asked for. *)
Theorem findNode_document_order forest x :
  findNode forest x = find (fun node => id node =? x) (allNodes forest).
Proof.
  induction forest as [|i t cs rest IHcs IHrest] using forest_ind; [reflexivity|].
  rewrite findNode_cons, allNodes_cons. cbn [find id].
  eqb_cases i x; [reflexivity|].
  rewrite IHcs, IHrest. clear.
  induction (allNodes cs) as [|a l IH]; [reflexivity|].
  simpl. now destruct (id a =? x).
Qed.

Lemma findNode_some forest x found :
  findNode forest x = Some found -> present found forest /\ id found = x.
Proof.
  induction forest as [|i t cs rest IHcs IHrest] using forest_ind;
    [discriminate|].
  rewrite findNode_cons, present_cons. eqb_cases i x.
  - intros [= <-]. auto.
  - destruct (findNode cs x) as [found'|].
    + intros [= ->]. destruct (IHcs eq_refl). auto.
    + intros H. destruct (IHrest H). auto.
Qed.

Lemma findNode_none forest x : findNode forest x = None -> ~ occurs x forest.
Proof.
  induction forest as [|i t cs rest IHcs IHrest] using forest_ind;
    [intros _ []|].
  rewrite findNode_cons, occurs_cons. eqb_cases i x; [discriminate|].
  destruct (findNode cs x); [discriminate|].
  intros H. specialize (IHcs eq_refl). specialize (IHrest H). tauto.
Qed.

(** X2.  What [findNode] returns is a node of the forest bearing the id
    asked for, and it returns null exactly when the id occurs nowhere in the
    forest. *)
Theorem findNode_sound_complete forest x :
  (forall found, findNode forest x = Some found ->
                 present found forest /\ id found = x) /\
  (findNode forest x = None <-> ~ occurs x forest).
Proof.
  split; [intros found; apply findNode_some|].
  split; [apply findNode_none|apply findNode_absent].
Qed.

(** ** getDescendantIds *)

Lemma present_ids X forest :
  present X forest -> incl (allIds [X]) (allIds forest).
Proof.
  intros Hp i Hi. rewrite allIds_allLabels in *.
  apply in_map_iff in Hi as (l & <- & Hl). apply in_map.
  now apply (present_labels _ _ Hp).
Qed.

(** X3.  The descendant set is closed downwards: for a node [Y] anywhere
    below [X], the id of [Y] and every descendant id of [Y] are descendant
    ids of [X]. *)
Theorem getDescendantIds_below X Y :
  present Y (children X) ->
  In (id Y) (getDescendantIds X) /\
  incl (getDescendantIds Y) (getDescendantIds X).
Proof.
  intros Hp. pose proof (present_ids _ _ Hp) as H.
  rewrite allIds_node in H. rewrite !getDescendantIds_allIds.
  split; [apply H; now left|]. intros i Hi. apply H. now right.
Qed.

Lemma getDescendantIds_below_witness :
  present (mkTocNode "1-2-1" "The left path" []) (children chapter1) /\
  In "1-2-1" (getDescendantIds chapter1) /\
  incl (getDescendantIds (mkTocNode "1-2-1" "The left path" []))
       (getDescendantIds chapter1).
Proof.
  assert (Hp : present (mkTocNode "1-2-1" "The left path" [])
                       (children chapter1))
    by (unfold present; simpl; auto).
  split; [exact Hp|].
  exact (getDescendantIds_below chapter1
           (mkTocNode "1-2-1" "The left path" []) Hp).
Defined.

(** ** deleteNode *)

Lemma deleteNode_labels forest x l :
  In l (allLabels (deleteNode forest x)) ->
  In l (allLabels forest) /\ fst l <> x.
Proof.
  induction forest as [|i t cs rest IHcs IHrest] using forest_ind;
    [intros []|].
  rewrite deleteNode_cons, In_allLabels_cons. eqb_cases i x.
  - intros H. apply IHrest in H. tauto.
  - rewrite In_allLabels_cons. intros [<- | [H | H]].
    + auto.
    + apply IHcs in H. tauto.
    + apply IHrest in H. tauto.
Qed.

Lemma deleteNode_gone forest x : ~ occurs x (deleteNode forest x).
Proof.
  unfold occurs. rewrite allIds_allLabels. intros H.
  apply in_map_iff in H as (l & E & Hl).
  now apply deleteNode_labels in Hl as [_ Hne].
Qed.

(** X4.  In every forest, unique ids or not, [deleteNode] leaves no node
    bearing the deleted id and brings in nothing new: each id and title of
    the result is the id and title of a node of the input.  Deleting the
    same id again changes nothing. *)
Theorem deleteNode_removes_every_bearer forest x :
  ~ occurs x (deleteNode forest x) /\
  incl (allLabels (deleteNode forest x)) (allLabels forest) /\
  deleteNode (deleteNode forest x) x = deleteNode forest x.
Proof.
  split; [apply deleteNode_gone|]. split.
  - intros l Hl. now apply deleteNode_labels in Hl.
  - apply deleteNode_absent, deleteNode_gone.
Qed.

(** X5.  Deletions commute: deleting two ids in either order gives the same
    forest. *)
Theorem deleteNode_commutes forest x y :
  deleteNode (deleteNode forest x) y = deleteNode (deleteNode forest y) x.
Proof.
  induction forest as [|i t cs rest IHcs IHrest] using forest_ind; [reflexivity|].
  rewrite !deleteNode_cons.
  eqb_cases i x; eqb_cases i y; rewrite ?deleteNode_cons;
    repeat match goal with
           | E : ?a = ?b |- context [?a =? ?b] =>
               rewrite (proj2 (String.eqb_eq a b) E)
           | E : ?a <> ?b |- context [?a =? ?b] =>
               rewrite (proj2 (String.eqb_neq a b) E)
           end;
    congruence.
Qed.

(** ** updateNodeTitle *)

Lemma updateNodeTitle_labels forest x newTitle l :
  In l (allLabels (updateNodeTitle forest x newTitle)) ->
  In l (allLabels forest) \/ l = (x, newTitle).
Proof.
  induction forest as [|i t cs rest IHcs IHrest] using forest_ind;
    [intros []|].
  rewrite updateNodeTitle_cons, In_allLabels_cons.
  eqb_cases i x; rewrite In_allLabels_cons.
  - intros [<- | [H | H]]; [subst; auto|auto|].
    apply IHrest in H. tauto.
  - intros [<- | [H | H]]; [auto|apply IHcs in H|apply IHrest in H]; tauto.
Qed.

(** X6.  Renaming keeps the shape of the forest: the ids, in document
    order, are those of the input, and each label of the result is a label
    of the input or the renamed id with the new title. *)
Theorem updateNodeTitle_keeps_ids forest x newTitle :
  allIds (updateNodeTitle forest x newTitle) = allIds forest /\
  forall l, In l (allLabels (updateNodeTitle forest x newTitle)) ->
            In l (allLabels forest) \/ l = (x, newTitle).
Proof.
  split; [apply allIds_updateNodeTitle|].
  intros l. apply updateNodeTitle_labels.
Qed.

(** X7.  Of two renames of the same id the last one wins. *)
Theorem updateNodeTitle_last_wins forest x t1 t2 :
  updateNodeTitle (updateNodeTitle forest x t1) x t2
  = updateNodeTitle forest x t2.
Proof.
  induction forest as [|i t cs rest IHcs IHrest] using forest_ind; [reflexivity|].
  rewrite !updateNodeTitle_cons.
  eqb_cases i x; rewrite updateNodeTitle_cons.
  - subst. rewrite String.eqb_refl. congruence.
  - rewrite (proj2 (String.eqb_neq i x)) by assumption. congruence.
Qed.

(** X8.  Renames of two different ids commute. *)
Theorem updateNodeTitle_commutes forest x y tx ty :
  x <> y ->
  updateNodeTitle (updateNodeTitle forest x tx) y ty
  = updateNodeTitle (updateNodeTitle forest y ty) x tx.
Proof.
  intros Hxy.
  induction forest as [|i t cs rest IHcs IHrest] using forest_ind; [reflexivity|].
  rewrite !updateNodeTitle_cons.
  eqb_cases i x; eqb_cases i y; rewrite !updateNodeTitle_cons;
    repeat match goal with
           | E : ?a = ?b |- context [?a =? ?b] =>
               rewrite (proj2 (String.eqb_eq a b) E)
           | E : ?a <> ?b |- context [?a =? ?b] =>
               rewrite (proj2 (String.eqb_neq a b) E)
           end;
    congruence.
Qed.

Lemma updateNodeTitle_commutes_witness :
  "1" <> "1-1" /\
  updateNodeTitle (updateNodeTitle scenario "1" "X") "1-1" "Y"
  = updateNodeTitle (updateNodeTitle scenario "1-1" "Y") "1" "X".
Proof.
  assert (H : "1" <> "1-1") by discriminate.
  split; [exact H|].
  exact (updateNodeTitle_commutes scenario "1" "1-1" "X" "Y" H).
Defined.

(** X9.  A rename and a delete commute, whatever the two ids: deleting
    after the rename gives what renaming after the delete gives. *)
Theorem deleteNode_updateNodeTitle forest x newTitle y :
  deleteNode (updateNodeTitle forest x newTitle) y
  = updateNodeTitle (deleteNode forest y) x newTitle.
Proof.
  induction forest as [|i t cs rest IHcs IHrest] using forest_ind; [reflexivity|].
  rewrite updateNodeTitle_cons, (deleteNode_cons i t cs).
  eqb_cases i x; eqb_cases i y;
    rewrite ?deleteNode_cons, ?updateNodeTitle_cons;
    repeat match goal with
           | E : ?a = ?b |- context [?a =? ?b] =>
               rewrite (proj2 (String.eqb_eq a b) E)
           | E : ?a <> ?b |- context [?a =? ?b] =>
               rewrite (proj2 (String.eqb_neq a b) E)
           end;
    try congruence.
Qed.

(** ** addNode *)

Lemma deleteNode_app l1 l2 x :
  deleteNode (l1 ++ l2) x = deleteNode l1 x ++ deleteNode l2 x.
Proof. apply flat_map_app. Qed.

Lemma deleteNode_single newNode : deleteNode [newNode] (id newNode) = [].
Proof.
  destruct newNode as [i t cs]. rewrite deleteNode_cons. simpl.
  now rewrite String.eqb_refl.
Qed.

(** X10.  Adding a node whose id does not occur in the forest and then
    deleting that id gives back the forest, for a null parent, for a parent
    that occurs and for one that does not. *)
Theorem deleteNode_addNode forest parentId newNode :
  ~ occurs (id newNode) forest ->
  deleteNode (addNode forest parentId newNode) (id newNode) = forest.
Proof.
  destruct parentId as [p|]; intros Hfresh.
  - induction forest as [|i t cs rest IHcs IHrest] using forest_ind;
      [reflexivity|].
    rewrite occurs_cons in Hfresh.
    rewrite addNode_cons. eqb_cases i p; rewrite deleteNode_cons;
      rewrite (proj2 (String.eqb_neq i (id newNode))) by tauto.
    + rewrite deleteNode_app, deleteNode_single, app_nil_r.
      rewrite (deleteNode_absent cs) by tauto. now rewrite IHrest by tauto.
    + now rewrite IHcs, IHrest by tauto.
  - unfold addNode.
    rewrite deleteNode_app, deleteNode_single, app_nil_r.
    now apply deleteNode_absent.
Qed.

Lemma deleteNode_addNode_witness :
  ~ occurs "7" initialData /\
  deleteNode (addNode initialData (Some "1-2") (mkTocNode "7" "New Section" []))
             "7"
  = initialData.
Proof.
  assert (H : ~ occurs "7" initialData)
    by (unfold occurs; simpl; intuition discriminate).
  split; [exact H|].
  exact (deleteNode_addNode initialData (Some "1-2")
           (mkTocNode "7" "New Section" []) H).
Defined.

Lemma addNode_labels forest p newNode l :
  In l (allLabels (addNode forest (Some p) newNode)) ->
  In l (allLabels forest) \/ In l (allLabels [newNode]).
Proof.
  induction forest as [|i t cs rest IHcs IHrest] using forest_ind;
    [intros []|].
  rewrite addNode_cons, In_allLabels_cons.
  eqb_cases i p; rewrite In_allLabels_cons.
  - rewrite allLabels_app, in_app_iff.
    intros [<- | [[H | H] | H]]; auto. apply IHrest in H. tauto.
  - intros [<- | [H | H]]; [auto|apply IHcs in H|apply IHrest in H]; tauto.
Qed.

Lemma addNode_keeps forest p newNode l :
  In l (allLabels forest) ->
  In l (allLabels (addNode forest (Some p) newNode)).
Proof.
  induction forest as [|i t cs rest IHcs IHrest] using forest_ind;
    [intros []|].
  rewrite addNode_cons, In_allLabels_cons.
  eqb_cases i p; rewrite In_allLabels_cons.
  - rewrite allLabels_app, in_app_iff. intros [H | [H | H]]; auto.
  - intros [H | [H | H]]; auto.
Qed.

(** X11.  [addNode] loses nothing and brings in only the new node: every
    label of the input is a label of the result, and every label of the
    result is one of the input or one of the new node's subtree. *)
Theorem addNode_only_adds forest parentId newNode :
  incl (allLabels forest) (allLabels (addNode forest parentId newNode)) /\
  incl (allLabels (addNode forest parentId newNode))
       (allLabels forest ++ allLabels [newNode]).
Proof.
  destruct parentId as [p|].
  - split; intros l Hl.
    + now apply addNode_keeps.
    + apply in_or_app. now apply addNode_labels in Hl.
  - unfold addNode. rewrite allLabels_app. split; intros l Hl.
    + apply in_or_app. now left.
    + assumption.
Qed.

(** ** handleMoveNode: what holds in every forest *)

Lemma insert_labels forest targetId D pos l :
  In l (allLabels (insert forest targetId D pos)) ->
  In l (allLabels forest) \/ In l (allLabels [D]).
Proof.
  induction forest as [|i t cs rest IHcs IHrest] using forest_ind;
    [intros []|].
  rewrite insert_cons. eqb_cases i targetId.
  - destruct pos.
    + change (D :: mkTocNode i t cs :: insert rest targetId D top)
        with ([D] ++ mkTocNode i t cs :: insert rest targetId D top).
      rewrite allLabels_app, in_app_iff, !In_allLabels_cons.
      intros [H | [H | [H | H]]]; auto. apply IHrest in H. tauto.
    + change (mkTocNode i t cs :: D :: insert rest targetId D bottom)
        with (mkTocNode i t cs :: [D] ++ insert rest targetId D bottom).
      rewrite !In_allLabels_cons, allLabels_app, in_app_iff.
      intros [H | [H | [H | H]]]; auto. apply IHrest in H. tauto.
  - rewrite !In_allLabels_cons.
    intros [H | [H | H]]; [auto|apply IHcs in H|apply IHrest in H]; tauto.
Qed.

Lemma nodesAfter_labels forest draggedId targetId position :
  incl (allLabels (nodesAfter forest
                     (handleMoveNode forest draggedId targetId position)))
       (allLabels forest).
Proof.
  unfold handleMoveNode, deepCopy.
  destruct (descendantGuard forest draggedId targetId); [apply incl_refl|].
  pose proof (remove_deleteNode forest draggedId None) as Htree.
  pose proof (remove_dragged forest draggedId None) as Hdragged.
  destruct (remove forest draggedId None) as [treeWithoutDragged [D|]];
    [|apply incl_refl].
  simpl in *. subst treeWithoutDragged.
  destruct (Hdragged D eq_refl) as [E | [Hp _]]; [discriminate|].
  intros l Hl. apply insert_labels in Hl as [Hl | Hl].
  - now apply deleteNode_labels in Hl.
  - now apply (present_labels _ _ Hp).
Qed.

(** X12.  A move brings nothing in, in any forest and for any two ids and
    position: each label of the forest after [handleMoveNode] is a label of
    the forest before. *)
Theorem handleMoveNode_invents_nothing forest draggedId targetId position :
  incl (allLabels (nodesAfter forest
                     (handleMoveNode forest draggedId targetId position)))
       (allLabels forest).
Proof. apply nodesAfter_labels. Qed.

Lemma remove_keeps_assigned forest x draggedNode :
  draggedNode <> None -> snd (remove forest x draggedNode) <> None.
Proof.
  revert draggedNode.
  induction forest as [|i t cs rest IHcs IHrest] using forest_ind;
    intros draggedNode H; [assumption|].
  rewrite remove_cons. eqb_cases i x.
  - now apply IHrest.
  - specialize (IHcs draggedNode H).
    destruct (remove cs x draggedNode) as [cs' d1].
    specialize (IHrest d1 IHcs). now destruct (remove rest x d1).
Qed.

Lemma remove_assigns forest x draggedNode :
  occurs x forest -> snd (remove forest x draggedNode) <> None.
Proof.
  revert draggedNode.
  induction forest as [|i t cs rest IHcs IHrest] using forest_ind;
    intros draggedNode H; [destruct H|].
  rewrite remove_cons. apply occurs_cons in H. eqb_cases i x.
  - now apply remove_keeps_assigned.
  - destruct H as [E | [H | H]]; [congruence| |].
    + specialize (IHcs draggedNode H).
      destruct (remove cs x draggedNode) as [cs' d1].
      pose proof (remove_keeps_assigned rest x d1 IHcs).
      now destruct (remove rest x d1).
    + destruct (remove cs x draggedNode) as [cs' d1].
      specialize (IHrest d1 H). now destruct (remove rest x d1).
Qed.

Lemma descendantGuard_occurs forest draggedId targetId :
  descendantGuard forest draggedId targetId = true -> occurs targetId forest.
Proof.
  unfold descendantGuard.
  destruct (findNode forest draggedId) as [found|] eqn:E; [|discriminate].
  intros H. apply includes_In in H. apply findNode_some in E as [Hp _].
  apply (present_ids _ _ Hp). rewrite allIds_node, <- getDescendantIds_allIds.
  now right.
Qed.

Lemma handleMoveNode_unguarded forest draggedId targetId position :
  descendantGuard forest draggedId targetId = false ->
  occurs draggedId forest ->
  exists D,
    snd (remove forest draggedId None) = Some D /\
    handleMoveNode forest draggedId targetId position
    = SetNodes (insert (deleteNode forest draggedId) targetId D position).
Proof.
  intros Hg Ho. unfold handleMoveNode, deepCopy. rewrite Hg.
  pose proof (remove_deleteNode forest draggedId None) as Htree.
  pose proof (remove_assigns forest draggedId None Ho) as Hsome.
  destruct (remove forest draggedId None) as [treeWithoutDragged [D|]];
    [|now destruct Hsome].
  simpl in Htree. subst. now exists D.
Qed.

(** X13.  When the dragged id occurs in the forest and the target id does
    not, [handleMoveNode] sets the forest to the one without the dragged
    node: the outcome is that of [deleteNode] on the dragged id. *)
Theorem handleMoveNode_unknown_target forest draggedId targetId position :
  occurs draggedId forest -> ~ occurs targetId forest ->
  handleMoveNode forest draggedId targetId position
  = SetNodes (deleteNode forest draggedId).
Proof.
  intros Hd Ht.
  assert (Hg : descendantGuard forest draggedId targetId = false).
  { destruct (descendantGuard forest draggedId targetId) eqn:E; [|reflexivity].
    now apply descendantGuard_occurs in E. }
  destruct (handleMoveNode_unguarded _ _ _ position Hg Hd) as (D & _ & ->).
  rewrite insert_absent; [reflexivity|].
  intros H. apply Ht. unfold occurs in *. rewrite allIds_allLabels in *.
  apply in_map_iff in H as (l & <- & Hl). apply in_map.
  now apply deleteNode_labels in Hl.
Qed.

Lemma handleMoveNode_unknown_target_witness :
  occurs "1-2" initialData /\ ~ occurs "9" initialData /\
  handleMoveNode initialData "1-2" "9" bottom
  = SetNodes (deleteNode initialData "1-2").
Proof.
  assert (Hd : occurs "1-2" initialData) by (unfold occurs; simpl; auto).
  assert (Ht : ~ occurs "9" initialData)
    by (unfold occurs; simpl; intuition discriminate).
  split; [exact Hd|]. split; [exact Ht|].
  exact (handleMoveNode_unknown_target initialData "1-2" "9" bottom Hd Ht).
Defined.

(** X14.  Called with the same id as dragged node and as target, in a
    forest with pairwise distinct ids where the id occurs, [handleMoveNode]
    passes its descendant check and sets the forest to the one without that
    node: it has no check for a node dropped on itself. *)
Theorem handleMoveNode_same_id forest X position :
  uniqueIds forest -> present X forest ->
  handleMoveNode forest (id X) (id X) position
  = SetNodes (deleteNode forest (id X)).
Proof.
  intros Hu Hp.
  assert (Hg : descendantGuard forest (id X) (id X) = false).
  { unfold descendantGuard. rewrite (findNode_present _ _ Hu Hp).
    destruct (includes (getDescendantIds X) (id X)) eqn:E; [|reflexivity].
    apply includes_In in E. now apply (uniqueIds_acyclic _ Hu X Hp) in E. }
  destruct (handleMoveNode_unguarded _ _ _ position Hg (present_occurs _ _ Hp))
    as (D & _ & ->).
  rewrite insert_absent; [reflexivity|apply deleteNode_gone].
Qed.

Lemma handleMoveNode_same_id_witness :
  uniqueIds initialData /\ present chapter1 initialData /\
  handleMoveNode initialData "1" "1" top
  = SetNodes (deleteNode initialData "1").
Proof.
  assert (Hp : present chapter1 initialData) by (unfold present; simpl; auto).
  split; [exact initialData_uniqueIds|]. split; [exact Hp|].
  exact (handleMoveNode_same_id initialData chapter1 top
           initialData_uniqueIds Hp).
Defined.

(** ** handleMoveNode and handleDrop: nothing is lost *)

Lemma perm_under_labels (before after inner part others : list (string * string))
  (l : string * string) :
  Permutation inner (part ++ others) ->
  Permutation (before ++ l :: inner ++ after)
              (part ++ before ++ l :: others ++ after).
Proof.
  intros P. rewrite P, (Permutation_app_swap_app part).
  apply Permutation_app_head. rewrite <- app_assoc. apply Permutation_middle.
Qed.

Lemma editedAt_labels edit forest forest' :
  editedAt edit forest forest' ->
  exists x xs others,
    edit x xs /\
    Permutation (allLabels forest) (allLabels [x] ++ others) /\
    Permutation (allLabels forest') (allLabels xs ++ others).
Proof.
  induction 1 as [before x xs after H
                 | before i t cs cs' after H (x & xs & others & He & P1 & P2)].
  - exists x, xs, (allLabels before ++ allLabels after). split; [assumption|].
    change (x :: after) with ([x] ++ after).
    rewrite !allLabels_app. split; apply Permutation_app_swap_app.
  - exists x, xs, (allLabels before ++ (i, t) :: others ++ allLabels after).
    split; [assumption|].
    rewrite !allLabels_app, !allLabels_cons.
    split; now apply perm_under_labels.
Qed.

Lemma deleteNode_perm_labels forest X :
  uniqueIds forest -> present X forest ->
  Permutation (allLabels forest)
              (allLabels [X] ++ allLabels (deleteNode forest (id X))).
Proof.
  intros Hu Hp.
  destruct (editedAt_labels _ _ _ (deleteNode_present _ _ Hu Hp))
    as (x & xs & others & [-> ->] & P1 & P2).
  now rewrite P1, P2.
Qed.

Lemma insert_perm_labels forest targetId D pos :
  uniqueIds forest -> occurs targetId forest ->
  Permutation (allLabels (insert forest targetId D pos))
              (allLabels [D] ++ allLabels forest).
Proof.
  intros Hu Hp.
  destruct (editedAt_labels _ _ _ (insert_present _ _ D pos Hu Hp))
    as (x & xs & others & [_ ->] & P1 & P2).
  rewrite P1, P2. destruct pos.
  - change [D; x] with ([D] ++ [x]). now rewrite allLabels_app, <- app_assoc.
  - change [x; D] with ([x] ++ [D]). rewrite allLabels_app, <- app_assoc.
    apply Permutation_app_swap_app.
Qed.

Lemma handleMoveNode_valid forest D targetId position :
  uniqueIds forest -> present D forest -> occurs targetId forest ->
  targetId <> id D -> ~ In targetId (getDescendantIds D) ->
  handleMoveNode forest (id D) targetId position
  = SetNodes (insert (deleteNode forest (id D)) targetId D position) /\
  Permutation
    (allLabels (insert (deleteNode forest (id D)) targetId D position))
    (allLabels forest).
Proof.
  intros Hu Hp Ho Hne Hnd. split.
  - unfold handleMoveNode, descendantGuard, deepCopy.
    rewrite (findNode_present _ _ Hu Hp).
    destruct (includes (getDescendantIds D) targetId) eqn:E.
    + apply includes_In in E. contradiction.
    + now rewrite (remove_present _ _ None Hu Hp).
  - rewrite insert_perm_labels.
    + now rewrite <- deleteNode_perm_labels.
    + now apply uniqueIds_deleteNode.
    + apply deleteNode_occurs; [assumption..|]. split; [assumption|].
      unfold occurs. rewrite allIds_node, <- getDescendantIds_allIds.
      simpl. intuition congruence.
Qed.

(** X15.  A move that [handleMoveNode] carries out conserves the nodes: in
    a forest with pairwise distinct ids, with the dragged node and the
    target both in the forest and the target neither the dragged node nor
    below it, the labels (id and title) of the new forest are those of the
    old one, each as many times, in another order. *)
Theorem handleMoveNode_conserves forest D targetId position :
  uniqueIds forest -> present D forest -> occurs targetId forest ->
  targetId <> id D -> ~ In targetId (getDescendantIds D) ->
  exists result,
    handleMoveNode forest (id D) targetId position = SetNodes result /\
    Permutation (allLabels result) (allLabels forest).
Proof.
  intros Hu Hp Ho Hne Hnd.
  exists (insert (deleteNode forest (id D)) targetId D position).
  now apply handleMoveNode_valid.
Qed.

Lemma handleMoveNode_conserves_witness :
  uniqueIds scenario /\ present (mkTocNode "1-1" "B" []) scenario /\
  occurs "1" scenario /\
  exists result,
    handleMoveNode scenario "1-1" "1" bottom = SetNodes result /\
    Permutation (allLabels result) (allLabels scenario).
Proof.
  assert (Hp : present (mkTocNode "1-1" "B" []) scenario)
    by (unfold present; simpl; auto).
  assert (Ho : occurs "1" scenario) by (unfold occurs; simpl; auto).
  assert (Hne : "1" <> id (mkTocNode "1-1" "B" [])) by discriminate.
  assert (Hnd : ~ In "1" (getDescendantIds (mkTocNode "1-1" "B" [])))
    by (simpl; auto).
  split; [exact scenario_uniqueIds|]. split; [exact Hp|]. split; [exact Ho|].
  exact (handleMoveNode_conserves scenario (mkTocNode "1-1" "B" []) "1" bottom
           scenario_uniqueIds Hp Ho Hne Hnd).
Defined.

(** X16.  A drop on a node of the forest never loses a node.  In a forest
    with pairwise distinct ids, whatever the drag carried and whatever the
    drop position, the forest after [handleDrop] on a node of the forest has
    the labels of the forest before, each as many times: the node is moved
    or the forest is left as it was. *)
Theorem handleDrop_conserves forest draggedId node dropPosition :
  uniqueIds forest -> present node forest ->
  Permutation (allLabels (handleDrop forest draggedId node dropPosition))
              (allLabels forest).
Proof.
  intros Hu Hnode. unfold handleDrop.
  destruct dropPosition as [pos|]; [|reflexivity].
  destruct (draggedId =? EmptyString); [reflexivity|].
  destruct (String.eqb_spec draggedId (id node)) as [E | Hne]; [reflexivity|].
  cbn [negb andb].
  destruct (occurs_dec draggedId forest) as [Ho | Ho].
  - apply occurs_present in Ho as (D & Hp & <-).
    destruct (in_dec string_dec (id node) (getDescendantIds D)) as [Hin | Hnin].
    + unfold handleMoveNode, descendantGuard.
      rewrite (findNode_present _ _ Hu Hp).
      apply includes_In in Hin. now rewrite Hin.
    + destruct (handleMoveNode_valid forest D (id node) pos Hu Hp
                  (present_occurs _ _ Hnode) (not_eq_sym Hne) Hnin)
        as [-> P].
      exact P.
  - unfold handleMoveNode, descendantGuard, deepCopy.
    now rewrite findNode_absent, remove_absent by assumption.
Qed.

Lemma handleDrop_conserves_witness :
  uniqueIds initialData /\ present chapter1 initialData /\
  Permutation (allLabels (handleDrop initialData "3" chapter1 (Some top)))
              (allLabels initialData).
Proof.
  assert (Hp : present chapter1 initialData) by (unfold present; simpl; auto).
  split; [exact initialData_uniqueIds|]. split; [exact Hp|].
  exact (handleDrop_conserves initialData "3" chapter1 (Some top)
           initialData_uniqueIds Hp).
Defined.

(** * The handlers around the tree functions *)

(** ** handleToggleExpand *)

Lemma setHas_app s1 s2 y : setHas (s1 ++ s2) y = setHas s1 y || setHas s2 y.
Proof. apply existsb_app. Qed.

Lemma setHas_In s y : setHas s y = true <-> In y s.
Proof. apply includes_In. Qed.

Lemma setHas_setAdd s x y : setHas (setAdd s x) y = setHas s y || (x =? y).
Proof.
  unfold setAdd. destruct (setHas s x) eqn:E.
  - destruct (String.eqb_spec x y) as [<- | _]; [now rewrite E|].
    now rewrite orb_false_r.
  - rewrite setHas_app. simpl. now rewrite orb_false_r.
Qed.

Lemma setHas_setDelete s x y :
  setHas (setDelete s x) y = setHas s y && negb (x =? y).
Proof.
  unfold setDelete, setHas. induction s as [|z s IH]; [reflexivity|].
  simpl. destruct (String.eqb_spec z x) as [-> | Hzx]; simpl.
  - rewrite IH. destruct (String.eqb_spec x y); simpl; [|reflexivity].
    now rewrite andb_false_r.
  - rewrite IH. destruct (String.eqb_spec z y) as [<- | _]; simpl; [|reflexivity].
    now rewrite (proj2 (String.eqb_neq x z)) by auto.
Qed.

(** X17.  [handleToggleExpand] flips the membership of the toggled id and
    of no other; the set keeps each id once; toggling the same id twice
    gives a set with the members it had. *)
Theorem handleToggleExpand_flips prev nodeId :
  (forall y, setHas (handleToggleExpand prev nodeId) y
             = if nodeId =? y then negb (setHas prev nodeId)
               else setHas prev y) /\
  (NoDup prev -> NoDup (handleToggleExpand prev nodeId)) /\
  (forall y, setHas (handleToggleExpand (handleToggleExpand prev nodeId) nodeId) y
             = setHas prev y).
Proof.
  assert (flips : forall s x y,
             setHas (handleToggleExpand s x) y
             = if x =? y then negb (setHas s x) else setHas s y).
  { intros s x y. unfold handleToggleExpand. destruct (setHas s x) eqn:E.
    - rewrite setHas_setDelete.
      destruct (String.eqb_spec x y) as [<- | _]; simpl.
      + now rewrite andb_false_r.
      + now rewrite andb_true_r.
    - rewrite setHas_setAdd.
      destruct (String.eqb_spec x y) as [<- | _]; simpl.
      + now rewrite orb_true_r.
      + now rewrite orb_false_r. }
  split; [apply flips|]. split.
  - intros Hnd. unfold handleToggleExpand, setAdd, setDelete.
    destruct (setHas prev nodeId) eqn:E; [now apply NoDup_filter|].
    apply NoDup_app; [assumption|repeat constructor; intros []|].
    intros a Ha [<- | []]. apply setHas_In in Ha. congruence.
  - intros y. rewrite !flips, String.eqb_refl.
    destruct (String.eqb_spec nodeId y) as [<- | _]; [|reflexivity].
    now rewrite negb_involutive.
Qed.

(** ** Rendering *)

Lemma renderApp_cons E i t cs rest :
  renderApp E (mkTocNode i t cs :: rest)
  = renderNode E 0 (mkTocNode i t cs) ++ renderApp E rest.
Proof. reflexivity. Qed.

Lemma renderNode_nodes E : forall forest level,
  incl (map snd (flat_map (renderNode E level) forest)) (allNodes forest).
Proof.
  induction forest as [|i t cs rest IHcs IHrest] using forest_ind;
    intros level n Hn; [destruct Hn|].
  rewrite allNodes_cons. cbn [flat_map renderNode] in Hn.
  rewrite map_app in Hn. cbn [map snd app] in Hn.
  destruct Hn as [<- | Hn]; [now left|]. right.
  apply in_app_or in Hn as [Hn | Hn]; apply in_or_app.
  - left. destruct ((0 <? length cs)%nat && setHas E i); [|destruct Hn].
    now apply (IHcs (S level)).
  - right. now apply (IHrest level).
Qed.

Lemma renderNode_all E : forall forest level,
  (forall i, occurs i forest -> setHas E i = true) ->
  map snd (flat_map (renderNode E level) forest) = allNodes forest.
Proof.
  induction forest as [|i t cs rest IHcs IHrest] using forest_ind;
    intros level Hall; [reflexivity|].
  rewrite allNodes_cons. cbn [flat_map renderNode].
  rewrite map_app. cbn [map snd app]. f_equal. f_equal.
  - rewrite (Hall i) by (apply occurs_cons; auto).
    destruct cs as [|c cs']; [reflexivity|]. cbn [length Nat.ltb Nat.leb andb].
    apply IHcs. intros j Hj. apply Hall, occurs_cons. auto.
  - apply IHrest. intros j Hj. apply Hall, occurs_cons. auto.
Qed.

(** X18.  What is on the screen is in the forest: every rendered row shows
    a node of the forest, every root is rendered at level 0, and when the
    id of every node is in [expandedNodes] the rows are all the nodes of the
    forest in document order. *)
Theorem renderApp_shows_forest expandedNodes forest :
  incl (map snd (renderApp expandedNodes forest)) (allNodes forest) /\
  (forall node, In node forest -> In (0, node) (renderApp expandedNodes forest)) /\
  ((forall i, occurs i forest -> setHas expandedNodes i = true) ->
   map snd (renderApp expandedNodes forest) = allNodes forest).
Proof.
  split; [apply renderNode_nodes|]. split; [|apply renderNode_all].
  intros node Hn. unfold renderApp. apply in_flat_map. exists node.
  split; [assumption|]. destruct node. now left.
Qed.

Lemma findNode_sound_complete_witness :
  findNode initialData "1" = Some chapter1 /\
  present chapter1 initialData /\ id chapter1 = "1".
Proof.
  assert (E : findNode initialData "1" = Some chapter1) by reflexivity.
  split; [exact E|].
  exact (proj1 (findNode_sound_complete initialData "1") chapter1 E).
Defined.

Lemma handleToggleExpand_flips_witness :
  NoDup initialExpanded /\
  handleToggleExpand initialExpanded "1" = ["1-2"] /\
  NoDup (handleToggleExpand initialExpanded "1").
Proof.
  assert (H : NoDup initialExpanded)
    by (repeat constructor; simpl; intuition discriminate).
  split; [exact H|]. split; [reflexivity|].
  exact (proj1 (proj2 (handleToggleExpand_flips initialExpanded "1")) H).
Defined.

Lemma renderApp_shows_forest_witness :
  (forall i, occurs i scenario -> setHas ["1"; "1-1"] i = true) /\
  map snd (renderApp ["1"; "1-1"] scenario) = allNodes scenario.
Proof.
  assert (H : forall i, occurs i scenario -> setHas ["1"; "1-1"] i = true).
  { intros i [<- | [<- | []]]; reflexivity. }
  split; [exact H|].
  exact (proj2 (proj2 (renderApp_shows_forest ["1"; "1-1"] scenario)) H).
Defined.

(** ** handleAddChild *)

Lemma renderNode_head E level node : In (level, node) (renderNode E level node).
Proof. destruct node. now left. Qed.

Lemma addNode_length forest p newNode :
  length (addNode forest (Some p) newNode) = length forest.
Proof. apply length_map. Qed.

Lemma addNode_rendered E p newNode : forall forest level,
  (exists l P, In (l, P) (flat_map (renderNode E level) forest) /\ id P = p) ->
  exists l', In (l', newNode)
               (flat_map (renderNode (setAdd E p) level)
                         (addNode forest (Some p) newNode)).
Proof.
  induction forest as [|i t cs rest IHcs IHrest] using forest_ind;
    intros level (l & P & Hin & HP); [destruct Hin|].
  rewrite addNode_cons. cbn [flat_map] in *.
  apply in_app_or in Hin.
  destruct (String.eqb_spec i p) as [-> | Hne].
  - exists (S level). apply in_or_app. left. cbn [renderNode]. right.
    rewrite setHas_setAdd, String.eqb_refl, orb_true_r, length_app.
    cbn [length]. rewrite Nat.add_1_r. cbn [Nat.ltb Nat.leb andb].
    apply in_flat_map. exists newNode. split; [|apply renderNode_head].
    apply in_or_app. right. now left.
  - destruct Hin as [Hin | Hin].
    + cbn [renderNode] in Hin. destruct Hin as [E1 | Hin].
      * injection E1 as _ <-. simpl in HP. congruence.
      * destruct ((0 <? length cs)%nat) eqn:Hlen; [|destruct Hin].
        destruct (setHas E i) eqn:Hexp; [|destruct Hin].
        cbn [andb] in Hin.
        destruct (IHcs (S level)) as [l' Hl']; [now exists l, P|].
        exists l'. apply in_or_app. left. cbn [renderNode]. right.
        now rewrite addNode_length, Hlen, setHas_setAdd, Hexp.
    + destruct (IHrest level) as [l' Hl']; [now exists l, P|].
      exists l'. apply in_or_app. now right.
Qed.

(** X19.  The node that [handleAddChild] adds is on the screen: added at
    the root it is rendered at level 0; added under a parent that is
    rendered (under a non-empty id), it is rendered too, because the parent
    is expanded by the same handler. *)
Theorem handleAddChild_shows_new_node expandedNodes forest stamp :
  In (0, mkTocNode stamp "New Section" [])
     (renderApp (handleAddChild_expanded expandedNodes None)
                (handleAddChild forest None stamp)) /\
  forall parentId level P,
    parentId <> EmptyString ->
    In (level, P) (renderApp expandedNodes forest) -> id P = parentId ->
    exists level',
      In (level', mkTocNode stamp "New Section" [])
         (renderApp (handleAddChild_expanded expandedNodes (Some parentId))
                    (handleAddChild forest (Some parentId) stamp)).
Proof.
  split.
  - unfold handleAddChild, addNode, renderApp. rewrite flat_map_app.
    apply in_or_app. right. now left.
  - intros parentId level P Hne Hin HP.
    unfold handleAddChild_expanded.
    rewrite (proj2 (String.eqb_neq parentId EmptyString) Hne). cbn [negb].
    apply addNode_rendered. now exists level, P.
Qed.

Lemma handleAddChild_shows_new_node_witness :
  "1-2-1" <> EmptyString /\
  In (2, mkTocNode "1-2-1" "The left path" [])
     (renderApp initialExpanded initialData) /\
  exists level',
    In (level', mkTocNode "7" "New Section" [])
       (renderApp (handleAddChild_expanded initialExpanded (Some "1-2-1"))
                  (handleAddChild initialData (Some "1-2-1") "7")).
Proof.
  assert (Hne : "1-2-1" <> EmptyString) by discriminate.
  assert (Hin : In (2, mkTocNode "1-2-1" "The left path" [])
                   (renderApp initialExpanded initialData))
    by (simpl; auto).
  split; [exact Hne|]. split; [exact Hin|].
  exact (proj2 (handleAddChild_shows_new_node initialExpanded initialData "7")
           "1-2-1" 2 (mkTocNode "1-2-1" "The left path" []) Hne Hin eq_refl).
Defined.

(** ** Titles *)

Lemma titlesNonEmpty_incl forest forest' :
  incl (allLabels forest') (allLabels forest) ->
  titlesNonEmpty forest -> titlesNonEmpty forest'.
Proof. intros Hincl H i t Hin. apply (H i), Hincl, Hin. Qed.

Lemma titlesNonEmpty_handleEvent trim forest e :
  titlesNonEmpty forest -> titlesNonEmpty (handleEvent trim forest e).
Proof.
  intros H. destruct e as [parentId stamp | node text | nodeId
                          | draggedId node dropPosition]; simpl.
  - intros i t Hin. unfold handleAddChild in Hin.
    assert (Hin' : In (i, t) (allLabels forest)
                   \/ In (i, t) (allLabels [mkTocNode stamp "New Section" []])).
    { destruct parentId as [p|]; [now apply addNode_labels in Hin|].
      unfold addNode in Hin. rewrite allLabels_app in Hin.
      now apply in_app_or in Hin. }
    destruct Hin' as [Hin' | [[= _ <-] | []]];
      [now apply (H i)|discriminate].
  - unfold handleSave, handleUpdateTitle.
    destruct (String.eqb_spec (trim text) EmptyString) as [E | Hne];
      [exact H|].
    intros i t Hin. apply updateNodeTitle_labels in Hin as [Hin | [= _ ->]];
      [now apply (H i)|assumption].
  - apply (titlesNonEmpty_incl forest); [|assumption].
    intros l Hl. now apply deleteNode_labels in Hl.
  - unfold handleDrop. destruct dropPosition as [pos|]; [|assumption].
    destruct (negb (draggedId =? EmptyString) && negb (draggedId =? id node));
      [|assumption].
    apply (titlesNonEmpty_incl forest); [|assumption].
    apply nodesAfter_labels.
Qed.

(** X20.  No title becomes empty through the handlers.  Starting from a
    forest whose titles are all non-empty, after any sequence of add clicks,
    title saves (whatever text was typed and whatever [trim] makes of it),
    delete clicks and drops, all titles are non-empty. *)
Theorem handleEvents_titles trim forest events :
  titlesNonEmpty forest -> titlesNonEmpty (handleEvents trim forest events).
Proof.
  revert forest. induction events as [|e rest IH]; intros forest H;
    [assumption|].
  apply IH. now apply titlesNonEmpty_handleEvent.
Qed.

Lemma handleEvents_titles_witness :
  titlesNonEmpty scenario /\
  titlesNonEmpty
    (handleEvents (fun text => text) scenario
       [ ClickAdd (Some "1") "7";
         SaveTitle (mkTocNode "7" "New Section" []) EmptyString;
         SaveTitle (mkTocNode "1" "A" []) "Intro";
         DropOn "1-1" (mkTocNode "7" "New Section" []) (Some bottom);
         ClickDelete "1-1" ]).
Proof.
  assert (H : titlesNonEmpty scenario).
  { intros i t [[= _ <-] | [[= _ <-] | []]]; discriminate. }
  split; [exact H|].
  exact (handleEvents_titles (fun text => text) scenario _ H).
Defined.

(** ** Invariant 1 through the handlers *)

Lemma uniqueIds_handleEvent trim forest e :
  uniqueIds forest ->
  match e with ClickAdd _ stamp => ~ occurs stamp forest | _ => True end ->
  uniqueIds (handleEvent trim forest e).
Proof.
  intros Hu Hf. destruct e as [parentId stamp | node text | nodeId
                              | draggedId node dropPosition]; simpl.
  - apply uniqueIds_addNode; [assumption|]. split.
    + unfold uniqueIds. simpl. repeat constructor. intros [].
    + intros i [<- | []]. assumption.
  - unfold handleSave.
    destruct (negb (trim text =? EmptyString)); [|assumption].
    now apply uniqueIds_updateNodeTitle.
  - now apply uniqueIds_deleteNode.
  - unfold handleDrop. destruct dropPosition as [pos|]; [|assumption].
    destruct (negb (draggedId =? EmptyString) && negb (draggedId =? id node));
      [|assumption].
    now apply uniqueIds_handleMoveNode.
Qed.

(** X21.  The handlers keep the ids pairwise distinct as long as the clock
    does: from a forest with pairwise distinct ids, after any sequence of
    add clicks, title saves, delete clicks and drops in which every add
    click reads a stamp that is no id of the forest at that time, the ids
    are pairwise distinct. *)
Theorem handleEvents_uniqueIds trim events : forall forest,
  uniqueIds forest -> freshStamps trim forest events ->
  uniqueIds (handleEvents trim forest events).
Proof.
  induction events as [|e rest IH]; intros forest Hu Hf; [assumption|].
  destruct Hf as [He Hrest]. apply IH; [|assumption].
  now apply uniqueIds_handleEvent.
Qed.

Lemma handleEvents_uniqueIds_witness :
  uniqueIds scenario /\
  freshStamps (fun text => text) scenario
    [ ClickAdd (Some "1") "7";
      DropOn "1-1" (mkTocNode "7" "New Section" []) (Some bottom);
      ClickAdd None "8" ] /\
  uniqueIds
    (handleEvents (fun text => text) scenario
       [ ClickAdd (Some "1") "7";
         DropOn "1-1" (mkTocNode "7" "New Section" []) (Some bottom);
         ClickAdd None "8" ]).
Proof.
  assert (Hf : freshStamps (fun text => text) scenario
                 [ ClickAdd (Some "1") "7";
                   DropOn "1-1" (mkTocNode "7" "New Section" []) (Some bottom);
                   ClickAdd None "8" ]).
  { simpl. unfold occurs. simpl. intuition discriminate. }
  split; [exact scenario_uniqueIds|]. split; [exact Hf|].
  exact (handleEvents_uniqueIds (fun text => text) _ scenario
           scenario_uniqueIds Hf).
Defined.

(** ** Looking up after an operation *)

Lemma findNode_app l1 l2 x :
  findNode (l1 ++ l2) x
  = match findNode l1 x with
    | Some found => Some found
    | None => findNode l2 x
    end.
Proof.
  unfold findNode. induction l1 as [|a l1 IH]; [reflexivity|].
  simpl. now destruct (findNode_in x a).
Qed.

Lemma findNode_single newNode : findNode [newNode] (id newNode) = Some newNode.
Proof.
  destruct newNode as [i t cs]. rewrite findNode_cons. simpl.
  now rewrite String.eqb_refl.
Qed.

(** X22.  What was added can be looked up: after adding a node whose id
    does not occur in the forest, at the root or under a parent id that
    occurs, [findNode] on the new id returns the new node. *)
Theorem findNode_addNode forest parentId newNode :
  ~ occurs (id newNode) forest ->
  match parentId with Some p => occurs p forest | None => True end ->
  findNode (addNode forest parentId newNode) (id newNode) = Some newNode.
Proof.
  destruct parentId as [p|]; intros Hfresh Hp.
  - induction forest as [|i t cs rest IHcs IHrest] using forest_ind;
      [destruct Hp|].
    rewrite occurs_cons in Hfresh. rewrite addNode_cons.
    eqb_cases i p; rewrite findNode_cons;
      rewrite (proj2 (String.eqb_neq i (id newNode))) by tauto.
    + rewrite findNode_app, (findNode_absent cs) by tauto.
      now rewrite findNode_single.
    + destruct (occurs_dec p cs) as [Hcs | Hcs].
      * rewrite IHcs by tauto. reflexivity.
      * rewrite (addNode_absent cs) by assumption.
        rewrite (findNode_absent cs) by tauto.
        apply occurs_cons in Hp. apply IHrest; tauto.
  - unfold addNode. rewrite findNode_app, findNode_absent by assumption.
    apply findNode_single.
Qed.

Lemma findNode_addNode_witness :
  ~ occurs "7" initialData /\ occurs "1-2" initialData /\
  findNode (addNode initialData (Some "1-2") (mkTocNode "7" "New Section" []))
           "7"
  = Some (mkTocNode "7" "New Section" []).
Proof.
  assert (H : ~ occurs "7" initialData)
    by (unfold occurs; simpl; intuition discriminate).
  assert (Hp : occurs "1-2" initialData) by (unfold occurs; simpl; auto).
  split; [exact H|]. split; [exact Hp|].
  exact (findNode_addNode initialData (Some "1-2")
           (mkTocNode "7" "New Section" []) H Hp).
Defined.

(** X23.  A rename reaches the node that a lookup finds: in every forest,
    looking up the renamed id after [updateNodeTitle] returns the node that
    the lookup returned before, with the new title and the same id and
    children; and a lookup after [deleteNode] of the same id returns null. *)
Theorem findNode_after_update forest x newTitle :
  findNode (updateNodeTitle forest x newTitle) x
  = option_map (fun found => mkTocNode (id found) newTitle (children found))
               (findNode forest x)
  /\ findNode (deleteNode forest x) x = None.
Proof.
  split; [|apply findNode_absent, deleteNode_gone].
  induction forest as [|i t cs rest IHcs IHrest] using forest_ind; [reflexivity|].
  rewrite updateNodeTitle_cons, (findNode_cons i t cs).
  eqb_cases i x; rewrite findNode_cons.
  - subst. now rewrite String.eqb_refl.
  - rewrite (proj2 (String.eqb_neq i x)) by assumption.
    rewrite IHcs, IHrest. now destruct (findNode cs x).
Qed.
